(** * BillHero: the Mistral OCR enrichment of parsed e-mail messages

    A shallow embedding of [apps/web/utils/ocr/mistral-ocr.ts] and of the
    graph merge protocol of the design documents, with the properties the
    specification states about them.

    Strings.  A JavaScript string is a sequence of UTF-16 code units.  The
    embedding uses Rocq's [string], a sequence of 8-bit characters, read as
    the code units U+0000 .. U+00FF (Latin-1).  On that range [toLowerCase],
    [trim], the classes [\s], [\d], [\w] and the [i] and [m] flags of the
    regular expressions are written out exactly as ECMAScript defines them. *)

From Stdlib Require Import Ascii String NArith ZArith QArith Lia.
From stdpp Require Import base option list strings pretty gmap.

Local Open Scope string_scope.
Local Open Scope list_scope.
#[local] Set Warnings "-register-all".

(** ** Characters and strings of the JavaScript runtime *)

Module Js.

Definition code (c : ascii) : N := N_of_ascii c.

Definition in_range (lo hi : N) (c : ascii) : bool :=
  ((lo <=? code c) && (code c <=? hi))%N.

(** ECMAScript [WhiteSpace] and [LineTerminator] below U+0100: TAB, LF, VT,
    FF, CR, SP and NBSP.  This is the class [\s] and what [trim] strips. *)
Definition is_space (c : ascii) : bool :=
  in_range 9 13 c || (code c =? 32)%N || (code c =? 160)%N.

(** [LineTerminator] below U+0100: LF and CR. *)
Definition is_line_terminator (c : ascii) : bool :=
  (code c =? 10)%N || (code c =? 13)%N.

Definition is_digit (c : ascii) : bool := in_range 48 57 c.

Definition is_upper (c : ascii) : bool := in_range 65 90 c.

Definition is_lower (c : ascii) : bool := in_range 97 122 c.

(** The class [\w]: [A-Za-z0-9_]. *)
Definition is_word (c : ascii) : bool :=
  is_upper c || is_lower c || is_digit c || (code c =? 95)%N.

(** [String.prototype.toLowerCase] on one code unit below U+0100: A-Z and
    the Latin-1 capitals U+00C0 .. U+00DE (the multiplication sign U+00D7
    apart) move up by 32; every other code unit is its own lower case. *)
Definition lower_char (c : ascii) : ascii :=
  if is_upper c || (in_range 192 222 c && negb (code c =? 215)%N)
  then ascii_of_N (code c + 32)
  else c.

Fixpoint toLowerCase (s : string) : string :=
  match s with
  | EmptyString => EmptyString
  | String c s' => String (lower_char c) (toLowerCase s')
  end.

(** [s.startsWith(p)] *)
Fixpoint startsWith (p s : string) : bool :=
  match p, s with
  | EmptyString, _ => true
  | String a p', String b s' => Ascii.eqb a b && startsWith p' s'
  | String _ _, EmptyString => false
  end.

(** [s.includes(p)]: [p] occurs in [s] as a substring. *)
Fixpoint includes (s p : string) : bool :=
  startsWith p s ||
  match s with
  | EmptyString => false
  | String _ s' => includes s' p
  end.

Fixpoint trimStart (s : string) : string :=
  match s with
  | EmptyString => EmptyString
  | String c s' => if is_space c then trimStart s' else s
  end.

Fixpoint trimEnd (s : string) : string :=
  match s with
  | EmptyString => EmptyString
  | String c s' =>
      match trimEnd s' with
      | EmptyString => if is_space c then EmptyString else String c EmptyString
      | t => String c t
      end
  end.

(** [s.trim()] *)
Definition trim (s : string) : string := trimEnd (trimStart s).

(** [s.substring(0, n)] *)
Fixpoint take (n : nat) (s : string) : string :=
  match n, s with
  | S n', String c s' => String c (take n' s')
  | _, _ => EmptyString
  end.

End Js.

(** ** Regular expressions

    The six patterns of [extractBillingData] use literals, one-character
    classes, quantifiers on one-character atoms (greedy and lazy), one
    capture group, one alternation and the line anchor.  [Regex] is that
    fragment, and [exec] is the backtracking matcher of ECMAScript on it:
    the leftmost start position wins, and at one position the alternatives
    are tried in priority order. *)

Module Regex.

Inductive regex : Type :=
| Eps                                   (* the empty pattern *)
| Chr (p : ascii -> bool)               (* one character of a class *)
| Seq (r1 r2 : regex)
| Alt (r1 r2 : regex)                   (* r1|r2, r1 tried first *)
| Rep (greedy : bool) (p : ascii -> bool) (lo : nat) (hi : option nat)
                                        (* a{lo,hi}, a?, a*, a+, a*? on a class *)
| Group (r : regex)                     (* the capture group 1 *)
| Bol.                                  (* ^ under the m flag *)

(** The position of the matcher: the character before it (for [^]) and the
    rest of the input. *)
Definition cont : Type := option ascii -> string -> option string -> option (option string).

Definition orelse {A} (x : option A) (y : unit -> option A) : option A :=
  match x with
  | Some a => Some a
  | None => y tt
  end.

Definition hi_open (hi : option nat) : bool :=
  match hi with
  | Some 0 => false
  | _ => true
  end.

Definition hi_pred (hi : option nat) : option nat :=
  match hi with
  | Some n => Some (Nat.pred n)
  | None => None
  end.

(** RepeatMatcher for an atom that consumes exactly one character. *)
Fixpoint rep (greedy : bool) (p : ascii -> bool) (k : cont)
    (lo : nat) (hi : option nat)
    (prev : option ascii) (s : string) (cap : option string) {struct s}
  : option (option string) :=
  let stop (_ : unit) :=
    match lo with
    | 0 => k prev s cap
    | S _ => None
    end in
  let more (_ : unit) :=
    match s with
    | String c s' =>
        if hi_open hi && p c
        then rep greedy p k (Nat.pred lo) (hi_pred hi) (Some c) s' cap
        else None
    | EmptyString => None
    end in
  if greedy then orelse (more tt) stop else orelse (stop tt) more.

Fixpoint run (r : regex) (prev : option ascii) (s : string)
    (cap : option string) (k : cont) {struct r} : option (option string) :=
  match r with
  | Eps => k prev s cap
  | Chr p =>
      match s with
      | String c s' => if p c then k (Some c) s' cap else None
      | EmptyString => None
      end
  | Seq r1 r2 => run r1 prev s cap (fun prev' s' cap' => run r2 prev' s' cap' k)
  | Alt r1 r2 => orelse (run r1 prev s cap k) (fun _ => run r2 prev s cap k)
  | Rep greedy p lo hi => rep greedy p k lo hi prev s cap
  | Group r1 =>
      run r1 prev s cap
        (fun prev' s' _ =>
           k prev' s' (Some (Js.take (String.length s - String.length s') s)))
  | Bol =>
      match prev with
      | None => k prev s cap
      | Some c => if Js.is_line_terminator c then k prev s cap else None
      end
  end.

Definition accept : cont := fun _ _ cap => Some cap.

(** The match at one start position. *)
Definition match_at (r : regex) (prev : option ascii) (s : string)
  : option (option string) :=
  run r prev s None accept.

(** The search over the start positions, from the left. *)
Fixpoint search (r : regex) (prev : option ascii) (s : string)
  : option (option string) :=
  orelse (match_at r prev s)
    (fun _ =>
       match s with
       | String c s' => search r (Some c) s'
       | EmptyString => None
       end).

(** [s.match(r)] for a pattern without the [g] flag: [None] is [null], and
    [Some cap] is a match array whose element 1 is [cap]. *)
Definition exec (r : regex) (s : string) : option (option string) :=
  search r None s.

(** Builders for the concrete syntax. *)
Definition is_char (a : ascii) : ascii -> bool := Ascii.eqb a.

(** A literal character under the [i] flag.  Canonicalize never maps a
    code unit above U+007F to one below, so an ASCII letter is matched by
    its two cases and by nothing else. *)
Definition is_char_i (a : ascii) : ascii -> bool :=
  fun c => Ascii.eqb a
             (if Js.is_upper c then ascii_of_N (Js.code c + 32) else c).

Fixpoint lit (s : string) : regex :=
  match s with
  | EmptyString => Eps
  | String a s' => Seq (Chr (is_char a)) (lit s')
  end.

(** A lower-case literal under the [i] flag. *)
Fixpoint lit_i (s : string) : regex :=
  match s with
  | EmptyString => Eps
  | String a s' => Seq (Chr (is_char_i a)) (lit_i s')
  end.

Definition star (p : ascii -> bool) : regex := Rep true p 0 None.
Definition plus (p : ascii -> bool) : regex := Rep true p 1 None.
Definition opt (p : ascii -> bool) : regex := Rep true p 0 (Some 1).
Definition between (lo hi : nat) (p : ascii -> bool) : regex := Rep true p lo (Some hi).
Definition lazy_star (p : ascii -> bool) : regex := Rep false p 0 None.

Fixpoint seq (rs : list regex) : regex :=
  match rs with
  | [] => Eps
  | [r] => r
  | r :: rs' => Seq r (seq rs')
  end.

(** Every match of the pattern goes through its capture group. *)
Fixpoint sets_group (r : regex) : bool :=
  match r with
  | Group _ => true
  | Seq r1 r2 => sets_group r1 || sets_group r2
  | Alt r1 r2 => sets_group r1 && sets_group r2
  | Eps | Chr _ | Rep _ _ _ _ | Bol => false
  end.

End Regex.

(** ** Values of the JavaScript runtime *)

(** A Number.  A finite number is known by its exact value, a fraction in
    lowest terms; [Num 0] is the positive zero. *)
Inductive JsNumber : Type :=
| NaN
| Num (q : Q)
| NegZero
| Infinity
| NegInfinity.

(** A value decoded by [response.json()], or [undefined]. *)
Inductive JsVal : Type :=
| VUndefined
| VNull
| VBool (b : bool)
| VNum (n : JsNumber)
| VStr (s : string)
| VArr (items : list JsVal)
| VObj (fields : list (string * JsVal)).

(** What a [throw] carries: an [Error] object (its [name] tells the class,
    [new Error(m)] has the name ["Error"]), or a value that is not an
    [Error], known by its rendering [String(v)]. *)
Inductive thrown : Type :=
| ErrorObj (name message : string)
| ThrownValue (rendering : string).

(** [error instanceof Error ? error.message : String(error)] *)
Definition error_message (e : thrown) : string :=
  match e with
  | ErrorObj _ m => m
  | ThrownValue r => r
  end.

Definition error_name (e : thrown) : option string :=
  match e with
  | ErrorObj n _ => Some n
  | ThrownValue _ => None
  end.

(** A computation that returns or throws. *)
Abbreviation result A := (thrown + A)%type (only parsing).

Definition TypeError (m : string) : thrown := ErrorObj "TypeError" m.

Module JsObj.

(** ToBoolean *)
Definition truthy (v : JsVal) : bool :=
  match v with
  | VUndefined | VNull => false
  | VBool b => b
  | VNum NaN | VNum NegZero => false
  | VNum (Num q) => negb (Qeq_bool q 0)
  | VNum Infinity | VNum NegInfinity => true
  | VStr s => negb (String.eqb s "")
  | VArr _ | VObj _ => true
  end.

(** [a || b] *)
Definition or (a b : JsVal) : JsVal := if truthy a then a else b.

Fixpoint own (fields : list (string * JsVal)) (key : string) : option JsVal :=
  match fields with
  | [] => None
  | (k, v) :: rest => if String.eqb k key then Some v else own rest key
  end.

(** [v.key] for a key that no prototype defines ([text], [json],
    [confidence]): a [TypeError] on [null] and [undefined], the own
    property of an object, [undefined] on everything else. *)
Definition get (v : JsVal) (key : string) : result JsVal :=
  match v with
  | VUndefined =>
      inl (TypeError ("Cannot read properties of undefined (reading '" +:+ key +:+ "')"))
  | VNull =>
      inl (TypeError ("Cannot read properties of null (reading '" +:+ key +:+ "')"))
  | VObj fields => inr (default VUndefined (own fields key))
  | _ => inr VUndefined
  end.

(** [v?.length] *)
Definition length_of (v : JsVal) : JsVal :=
  match v with
  | VStr s => VNum (Num (inject_Z (Z.of_nat (String.length s))))
  | VArr l => VNum (Num (inject_Z (Z.of_nat (List.length l))))
  | VObj fields => default VUndefined (own fields "length")
  | _ => VUndefined
  end.

Definition of_nat (n : nat) : JsVal := VNum (Num (inject_Z (Z.of_nat n))).

End JsObj.

(** ** [parseFloat] *)

Module Number.

Definition digit (c : ascii) : N := (Js.code c - 48)%N.

(** The leading digits of [s], read in base ten onto [acc], with their
    count and the rest of the string. *)
Fixpoint digits (acc : N) (count : nat) (s : string) : N * nat * string :=
  match s with
  | String c s' =>
      if Js.is_digit c then digits (acc * 10 + digit c)%N (S count) s'
      else (acc, count, s)
  | EmptyString => (acc, count, s)
  end.

(** The value of an unsigned run of digits at the start of [s], when
    there is one. *)
Definition unsigned_integer (s : string) : option Z :=
  let '(v, n, _) := digits 0 0 s in
  match n with
  | 0 => None
  | S _ => Some (Z.of_N v)
  end.

(** [ExponentPart] at the start of [s]: an [e] or [E], an optional sign
    and digits.  The exponent it denotes; 0 when [s] starts with no
    exponent part, which is then not read. *)
Definition exponent (s : string) : Z :=
  match s with
  | String c rest =>
      if Ascii.eqb c "e" || Ascii.eqb c "E"
      then match rest with
           | String "+" r => default 0%Z (unsigned_integer r)
           | String "-" r => (- default 0%Z (unsigned_integer r))%Z
           | _ => default 0%Z (unsigned_integer rest)
           end
      else 0%Z
  | EmptyString => 0%Z
  end.

(** The quotient [n / d] of two positive integers divided by [2 ^ e], as a
    numerator and a denominator. *)
Definition scaled (n d e : Z) : Z * Z :=
  if (0 <=? e)%Z then (n, d * 2 ^ e)%Z else (n * 2 ^ (- e), d)%Z.

(** The Number value for [n / d], with [n] and [d] positive: the binary64
    number nearest to it, the one with an even significand when two are
    as near; [Infinity] from [2 ^ 1024] on.  [e] is the exponent of the
    last place: the significand has 53 bits, and fewer below
    [2 ^ -1022]. *)
Definition round_binary64 (n d : Z) : JsNumber :=
  let l := (Z.log2 n - Z.log2 d)%Z in
  let '(n0, d0) := scaled n d l in
  let magnitude := if (d0 <=? n0)%Z then l else (l - 1)%Z in
  let e := Z.max (magnitude - 52) (-1074) in
  let '(n1, d1) := scaled n d e in
  let m := (n1 / d1)%Z in
  let r := (n1 mod d1)%Z in
  let m' :=
    match (2 * r ?= d1)%Z with
    | Lt => m
    | Gt => (m + 1)%Z
    | Eq => if Z.even m then m else (m + 1)%Z
    end in
  if (0 <=? e)%Z
  then if (2 ^ 1024 <=? m' * 2 ^ e)%Z then Infinity
       else Num (inject_Z (m' * 2 ^ e))
  else Num (Qred (m' # Z.to_pos (2 ^ (- e)))).

(** The Number value of the decimal [mantissa * 10 ^ e10]. *)
Definition of_decimal (mantissa : N) (e10 : Z) : JsNumber :=
  match mantissa with
  | 0%N => Num 0
  | _ =>
      if (0 <=? e10)%Z
      then round_binary64 (Z.of_N mantissa * 10 ^ e10) 1
      else round_binary64 (Z.of_N mantissa) (10 ^ (- e10))
  end.

(** The longest [StrUnsignedDecimalLiteral] at the start of [s]:
    [Infinity]; digits, then possibly a dot and digits, then possibly an
    exponent part; or a dot, digits and possibly an exponent part. *)
Definition unsigned (s : string) : JsNumber :=
  if Js.startsWith "Infinity" s then Infinity
  else
    let '(int, n, rest) := digits 0 0 s in
    match rest with
    | String "." frac =>
        let '(num, k, rest') := digits int 0 frac in
        match n, k with
        | 0, 0 => NaN
        | _, _ => of_decimal num (exponent rest' - Z.of_nat k)
        end
    | _ =>
        match n with
        | 0 => NaN
        | S _ => of_decimal int (exponent rest)
        end
    end.

Definition negate (x : JsNumber) : JsNumber :=
  match x with
  | NaN => NaN
  | Num q => if Qeq_bool q 0 then NegZero else Num (- q)
  | NegZero => Num 0
  | Infinity => NegInfinity
  | NegInfinity => Infinity
  end.

(** [parseFloat(s)]: the white space at the start is skipped, and the
    longest prefix of the rest that is a [StrDecimalLiteral] gives the
    value, rounded to a binary64 number; [NaN] when there is no such
    prefix.  The rounding is to the nearest number whatever the count of
    digits, as V8 does it. *)
Definition parseFloat (s : string) : JsNumber :=
  match Js.trimStart s with
  | String "-" u => negate (unsigned u)
  | String "+" u => unsigned u
  | t => unsigned t
  end.

End Number.

(** ** [extractBillingData] *)

(** [MistralOCRResult["extractedData"]] *)
Record ExtractedData : Type := mkExtractedData {
  documentType : option string;
  totalAmount : option JsNumber;
  dueDate : option string;
  vendor : option string;
  invoiceNumber : option string
}.

Module Patterns.
Import Regex.

Definition colon_or_space (c : ascii) : bool := is_char ":" c || Js.is_space c.
Definition slash_or_dash (c : ascii) : bool := is_char "/" c || is_char "-" c.
Definition not_newline (c : ascii) : bool := negb (is_char "010" c).

(** The capture group of an amount, [AMOUNT] below: "\d+\.?\d*" in
    parentheses. *)
Definition amount_group : regex :=
  Group (seq [plus Js.is_digit; opt (is_char "."); star Js.is_digit]).

(** "/total[:\s]*\$?AMOUNT/i" *)
Definition total_pattern : regex :=
  seq [lit_i "total"; star colon_or_space; opt (is_char "$"); amount_group].

(** "/amount[:\s]*\$?AMOUNT/i" *)
Definition amount_pattern : regex :=
  seq [lit_i "amount"; star colon_or_space; opt (is_char "$"); amount_group].

(** "/\$AMOUNT/" *)
Definition dollar_pattern : regex :=
  seq [lit "$"; amount_group].

Definition amountPatterns : list regex :=
  [total_pattern; amount_pattern; dollar_pattern].

(** "/due[:\s]*(\d{1,2}[\/\-]\d{1,2}[\/\-]\d{2,4})/i" *)
Definition dueDatePattern : regex :=
  seq [lit_i "due"; star colon_or_space;
       Group (seq [between 1 2 Js.is_digit; Chr slash_or_dash;
                   between 1 2 Js.is_digit; Chr slash_or_dash;
                   between 2 4 Js.is_digit])].

(** "/invoice[:\s]*(#?\w+)/i" *)
Definition invoicePattern : regex :=
  seq [lit_i "invoice"; star colon_or_space;
       Group (seq [opt (is_char "#"); plus Js.is_word])].

(** "/^([^\n]*?)(?:invoice|bill)/im" *)
Definition vendorPattern : regex :=
  seq [Bol; Group (lazy_star not_newline); Alt (lit_i "invoice") (lit_i "bill")].

End Patterns.

(** [match[1]] of a match array, as a string.  The group of each of the
    six patterns takes part in every match, so that [match[1]] is never
    [undefined] here. *)
Definition group1 (m : option string) : string := default "undefined" m.

(** The loop over [amountPatterns]: the first pattern that matches gives
    the amount. *)
Fixpoint firstAmount (patterns : list Regex.regex) (text : string) : option JsNumber :=
  match patterns with
  | [] => None
  | pattern :: rest =>
      match Regex.exec pattern text with
      | Some m => Some (Number.parseFloat (group1 m))
      | None => firstAmount rest text
      end
  end.

(** The [if]/[else if] chain that determines the document type. *)
Definition classify (text : string) : option string :=
  if Js.includes (Js.toLowerCase text) "phone" || Js.includes (Js.toLowerCase text) "telecom"
  then Some "phone_bill"
  else if Js.includes (Js.toLowerCase text) "legal" || Js.includes (Js.toLowerCase text) "attorney"
  then Some "legal_invoice"
  else if Js.includes (Js.toLowerCase text) "invoice"
  then Some "invoice"
  else None.

(** The body of [extractBillingData] once [text] is known to be a string. *)
Definition extractFromText (text : string) : ExtractedData :=
  let totalAmount := firstAmount Patterns.amountPatterns text in
  let dueDateMatch := Regex.exec Patterns.dueDatePattern text in
  let dueDate := match dueDateMatch with Some m => Some (group1 m) | None => None end in
  let invoiceMatch := Regex.exec Patterns.invoicePattern text in
  let invoiceNumber := match invoiceMatch with Some m => Some (group1 m) | None => None end in
  let vendorMatch := Regex.exec Patterns.vendorPattern text in
  let vendor := match vendorMatch with Some m => Some (Js.trim (group1 m)) | None => None end in
  let documentType := classify text in
  {| documentType := documentType;
     totalAmount := totalAmount;
     dueDate := dueDate;
     vendor := vendor;
     invoiceNumber := invoiceNumber |}.

(** [extractBillingData(ocrResult: any)].  [ocrResult.text] throws on
    [null]; a [text] that is truthy and not a string has no [match]
    method, and the first [text.match(pattern)] throws. *)
Definition extractBillingData (ocrResult : JsVal) : result ExtractedData :=
  match JsObj.get ocrResult "text" with
  | inl e => inl e
  | inr t =>
      let text := JsObj.or t (VStr "") in
      match JsObj.get ocrResult "json" with
      | inl e => inl e
      | inr j =>
          let json := JsObj.or j (VObj []) in
          match text with
          | VStr s => inr (extractFromText s)
          | _ => inl (TypeError "text.match is not a function")
          end
      end
  end.

(** The object literal that [extractBillingData] returns, as the list of
    its own properties; an absent field is a property whose value is
    [undefined]. *)
Definition opt_str (o : option string) : JsVal :=
  match o with Some s => VStr s | None => VUndefined end.

Definition opt_num (o : option JsNumber) : JsVal :=
  match o with Some n => VNum n | None => VUndefined end.

Definition extractedData_object (d : ExtractedData) : JsVal :=
  VObj [("documentType", opt_str (documentType d));
        ("totalAmount", opt_num (totalAmount d));
        ("dueDate", opt_str (dueDate d));
        ("vendor", opt_str (vendor d));
        ("invoiceNumber", opt_str (invoiceNumber d))].

(** ** Messages and OCR results *)

(** [Attachment] of "@/utils/types": the three fields this module reads,
    and the other properties of the object, which it only copies. *)
Record Attachment : Type := mkAttachment {
  attachmentId : string;
  filename : string;
  mimeType : string;
  attachment_rest : list (string * JsVal)
}.

(** [ParsedMessage] of "@/utils/types": [id], [subject], [headers.from],
    the optional [attachments], and the other properties. *)
Record ParsedMessage : Type := mkParsedMessage {
  message_id : string;
  subject : string;
  headers_from : string;
  attachments : option (list Attachment);
  message_rest : list (string * JsVal)
}.

Record MistralOCRResult : Type := mkMistralOCRResult {
  ocr_attachmentId : string;
  ocr_filename : string;
  success : bool;
  ocrText : option JsVal;
  extractedData : option ExtractedData;
  error : option string
}.

(** [EnrichedAttachment extends Attachment] *)
Record EnrichedAttachment : Type := mkEnrichedAttachment {
  attachment_of : Attachment;
  ocrResult : option MistralOCRResult
}.

(** [EnrichedMessage extends ParsedMessage] *)
Record EnrichedMessage : Type := mkEnrichedMessage {
  message_of : ParsedMessage;
  enrichedAttachments : option (list EnrichedAttachment)
}.

Definition is_pdf (attachment : Attachment) : bool :=
  String.eqb (mimeType attachment) "application/pdf".

(** ** The outside world: e-mail provider, OCR service, logger *)

(** What [emailProvider.getAttachment] resolves to. *)
Record AttachmentData : Type := mkAttachmentData {
  data : string;
  size : nat
}.

(** The POST request to the OCR endpoint.  [form_file] is the base64 text
    the blob is decoded from. *)
Record Request : Type := mkRequest {
  request_method : string;
  request_authorization : string;
  form_file : string;
  form_filename : string;
  form_model : string;
  form_include_json : string
}.

(** A response of [fetch], with what [response.json()] gives on it. *)
Record Response : Type := mkResponse {
  status : nat;
  statusText : string;
  json : result JsVal
}.

(** [response.ok]: the status is in the range 200-299. *)
Definition ok (response : Response) : bool :=
  ((200 <=? status response) && (status response <=? 299))%nat.

(** The calls to the outside world, each with the type of its answer.  A
    promise resolves or rejects; the logger and [captureException] return
    and do not throw. *)
Inductive Event : Type -> Type :=
| GetAttachment (messageId attachment_id : string) : Event (result AttachmentData)
| Fetch (url : string) (request : Request) : Event (result Response)
| LoggerInfo (message : string) (payload : JsVal) : Event unit
| LoggerError (message : string) (payload : JsVal) : Event unit
| CaptureException (e : thrown) (extra : JsVal) : Event unit.

(** An asynchronous computation: the calls it makes to the outside world,
    one after the other, each continued with the answer. *)
Inductive Prog (A : Type) : Type :=
| Ret (a : A)
| Vis {X : Type} (e : Event X) (k : X -> Prog A).

Arguments Ret {A} a.
Arguments Vis {A X} e k.

Module Async.

Fixpoint bind {A B} (p : Prog A) (f : A -> Prog B) : Prog B :=
  match p with
  | Ret a => f a
  | Vis e k => Vis e (fun x => bind (k x) f)
  end.

Definition call {X} (e : Event X) : Prog X := Vis e Ret.

(** [await] of a promise that may reject, and the sequencing of the
    statements of a function that may throw. *)
Definition bind_ok {A B} (p : Prog (result A)) (f : A -> Prog (result B))
  : Prog (result B) :=
  bind p (fun r => match r with inl e => Ret (inl e) | inr a => f a end).

Definition throw {A} (e : thrown) : Prog (result A) := Ret (inl e).
Definition pure {A} (a : A) : Prog (result A) := Ret (inr a).
Definition lift {A} (r : result A) : Prog (result A) := Ret r.

(** A call that does not throw, as a statement. *)
Definition exec {B} (e : Event unit) (rest : Prog (result B)) : Prog (result B) :=
  bind (call e) (fun _ => rest).

(** [try { p } catch (error) { handler error }] *)
Definition try_catch {A} (p : Prog (result A)) (handler : thrown -> Prog (result A))
  : Prog (result A) :=
  bind p (fun r => match r with inl e => handler e | inr a => Ret (inr a) end).

End Async.

Notation "'let?' x := p 'in' q" := (Async.bind_ok p (fun x => q))
  (at level 10, x name, p at level 100, q at level 200).
Notation "'do' e 'in' q" := (Async.exec e q)
  (at level 10, e at level 100, q at level 200).

(** An event with its answer type packed. *)
Definition AnyEvent : Type := { X : Type & Event X }.
Definition any {X} (e : Event X) : AnyEvent := existT X e.

(** The outside world answers each call; the answer may depend on all the
    calls made before. *)
Definition World : Type := list AnyEvent -> forall X, Event X -> X.

(** Running a computation in a world that has seen the calls of [history]:
    its value and the calls it makes, in order. *)
Fixpoint run {A} (w : World) (p : Prog A) (history : list AnyEvent) : A * list AnyEvent :=
  match p with
  | Ret a => (a, [])
  | Vis e k =>
      let '(a, made) := run w (k (w history _ e)) (history ++ [any e]) in
      (a, any e :: made)
  end.

Definition value {A} (w : World) (p : Prog A) : A := fst (run w p []).
Definition calls {A} (w : World) (p : Prog A) : list AnyEvent := snd (run w p []).

Definition getAttachment_of (ev : AnyEvent) : option (string * string) :=
  match projT2 ev with
  | GetAttachment messageId attachment_id => Some (messageId, attachment_id)
  | _ => None
  end.

Definition fetch_of (ev : AnyEvent) : option Request :=
  match projT2 ev with
  | Fetch _ request => Some request
  | _ => None
  end.

(** The calls of [emailProvider.getAttachment] among [made], in order, by
    their arguments. *)
Definition provider_calls (made : list AnyEvent) : list (string * string) :=
  omap getAttachment_of made.

(** The requests sent to the OCR service among [made], in order. *)
Definition ocr_requests (made : list AnyEvent) : list Request :=
  omap fetch_of made.

(** A world given by what the provider and the network answer, whatever
    happened before. *)
Definition world_of (provider : string -> string -> result AttachmentData)
    (network : string -> Request -> result Response) : World :=
  fun _ X e =>
    match e in Event X return X with
    | GetAttachment messageId attachment_id => provider messageId attachment_id
    | Fetch url request => network url request
    | LoggerInfo _ _ | LoggerError _ _ | CaptureException _ _ => tt
    end.

(** ** [processPDFWithMistralOCR] and [processPDFAttachments] *)

Section MistralOCR.

(** The module constant [MISTRAL_OCR_API_KEY]: the environment variable of
    that name, or the default written in the source. *)
Variable MISTRAL_OCR_API_KEY : string.

Definition MISTRAL_OCR_ENDPOINT : string := "https://api.mistral.ai/v1/ocr".

Definition ocr_request (attachment : Attachment) (attachmentData : AttachmentData)
  : Request :=
  {| request_method := "POST";
     request_authorization := "Bearer " +:+ MISTRAL_OCR_API_KEY;
     form_file := data attachmentData;
     form_filename := filename attachment;
     form_model := "mistral-ocr-2505";
     form_include_json := "true" |}.

(** [result.text?.length || 0], given [result.text]. *)
Definition textLength (text : JsVal) : JsVal :=
  JsObj.or (JsObj.length_of text) (JsObj.of_nat 0).

(** The [try] block of [processPDFWithMistralOCR]. *)
Definition ocr_attempt (messageId : string) (attachment : Attachment)
  : Prog (result MistralOCRResult) :=
  let? attachmentData := Async.call (GetAttachment messageId (attachmentId attachment)) in
  do LoggerInfo "Retrieved PDF attachment"
       (VObj [("filename", VStr (filename attachment));
              ("size", JsObj.of_nat (size attachmentData))]) in
  let? response := Async.call (Fetch MISTRAL_OCR_ENDPOINT (ocr_request attachment attachmentData)) in
  if negb (ok response)
  then Async.throw
         (ErrorObj "Error"
            ("Mistral OCR API error: " +:+ pretty (status response) +:+ " "
               +:+ statusText response))
  else
    let? result := Async.lift (json response) in
    let? text := Async.lift (JsObj.get result "text") in
    do LoggerInfo "Successfully processed PDF with Mistral OCR"
         (VObj [("filename", VStr (filename attachment));
                ("textLength", textLength text)]) in
    let? extractedData := Async.lift (extractBillingData result) in
    Async.pure
      {| ocr_attachmentId := attachmentId attachment;
         ocr_filename := filename attachment;
         success := true;
         ocrText := Some (JsObj.or text (VStr ""));
         extractedData := Some extractedData;
         error := None |}.

Definition processPDFWithMistralOCR (messageId : string) (attachment : Attachment)
  : Prog (result MistralOCRResult) :=
  Async.try_catch (ocr_attempt messageId attachment)
    (fun e =>
       do CaptureException e
            (VObj [("extra",
                    VObj [("messageId", VStr messageId);
                          ("attachmentId", VStr (attachmentId attachment));
                          ("filename", VStr (filename attachment))])]) in
       Async.throw e).

(** The entry pushed in the [catch] block of the loop. *)
Definition failure_entry (attachment : Attachment) (e : thrown) : EnrichedAttachment :=
  {| attachment_of := attachment;
     ocrResult :=
       Some {| ocr_attachmentId := attachmentId attachment;
               ocr_filename := filename attachment;
               success := false;
               ocrText := None;
               extractedData := None;
               error := Some (error_message e) |} |}.

(** One turn of the [for] loop, on the list built so far. *)
Definition enrich_one (messageId : string) (attachment : Attachment)
    (enriched : list EnrichedAttachment) : Prog (result (list EnrichedAttachment)) :=
  if is_pdf attachment
  then
    Async.try_catch
      (let? ocr := processPDFWithMistralOCR messageId attachment in
       Async.pure (enriched ++ [ {| attachment_of := attachment; ocrResult := Some ocr |} ]))
      (fun e =>
         do LoggerError "Failed to process PDF with Mistral OCR"
              (VObj [("filename", VStr (filename attachment));
                     ("error", VStr (error_message e))]) in
         Async.pure (enriched ++ [failure_entry attachment e]))
  else
    Async.pure (enriched ++ [ {| attachment_of := attachment; ocrResult := None |} ]).

Fixpoint enrich_loop (messageId : string) (todo : list Attachment)
    (enriched : list EnrichedAttachment) : Prog (result (list EnrichedAttachment)) :=
  match todo with
  | [] => Async.pure enriched
  | attachment :: rest =>
      let? enriched' := enrich_one messageId attachment enriched in
      enrich_loop messageId rest enriched'
  end.

Definition unchanged (message : ParsedMessage) : EnrichedMessage :=
  {| message_of := message; enrichedAttachments := None |}.

Definition processPDFAttachments (message : ParsedMessage)
  : Prog (result EnrichedMessage) :=
  match attachments message with
  | None | Some [] => Async.pure (unchanged message)
  | Some all =>
      let pdfAttachments := List.filter is_pdf all in
      if (List.length pdfAttachments =? 0)%nat
      then
        do LoggerInfo "No PDF attachments found" VUndefined in
        Async.pure (unchanged message)
      else
        do LoggerInfo "Processing PDF attachments with Mistral OCR"
             (VObj [("pdfCount", JsObj.of_nat (List.length pdfAttachments));
                    ("filenames", VArr (List.map (fun a => VStr (filename a)) pdfAttachments))]) in
        let? enriched := enrich_loop (message_id message) all [] in
        Async.pure {| message_of := message; enrichedAttachments := Some enriched |}
  end.

End MistralOCR.

(** ** [isLikelyBillingMessage] *)

Definition billingKeywords : list string :=
  ["invoice"; "bill"; "statement"; "payment"; "due"; "attorney"; "legal";
   "phone"; "utility"; "telecom"; "mobile"; "verizon"; "at&t"; "t-mobile"].

Definition isLikelyBillingMessage (message : ParsedMessage) : bool :=
  let subject := Js.toLowerCase (subject message) in
  let from := Js.toLowerCase (headers_from message) in
  let hasBillingKeyword :=
    existsb (fun keyword => Js.includes subject keyword || Js.includes from keyword)
      billingKeywords in
  let hasPDFAttachments :=
    match attachments message with
    | Some all => existsb is_pdf all
    | None => false
    end in
  hasBillingKeyword && hasPDFAttachments.

(** ** Predicates of the statements *)

(** No attachment of the message is a PDF: the list is absent, empty, or
    holds other MIME types only. *)
Definition no_pdf (message : ParsedMessage) : Prop :=
  match attachments message with
  | None => True
  | Some all => Forall (fun a => mimeType a ≠ "application/pdf") all
  end.

Definition has_pdf (message : ParsedMessage) : Prop :=
  exists all a, attachments message = Some all /\ a ∈ all /\ mimeType a = "application/pdf".

(** The PDF attachments of a message, in order. *)
Definition pdfAttachments (message : ParsedMessage) : list Attachment :=
  match attachments message with
  | Some all => List.filter is_pdf all
  | None => []
  end.

(** What the turn of one attachment may call: the provider once and the
    OCR service at most once for a PDF, nothing otherwise. *)
Definition turn_calls (id : string) (a : Attachment) (made : list AnyEvent) : Prop :=
  provider_calls made = (if is_pdf a then [(id, attachmentId a)] else [])
  /\ (map form_filename (ocr_requests made)
      `sublist_of` (if is_pdf a then [filename a] else [])).

(** The record of a failed OCR run: the id and the file name of the
    attachment, [success] false, the message, and neither text nor data. *)
Definition failure_record (a : Attachment) (message : string) : MistralOCRResult :=
  {| ocr_attachmentId := attachmentId a;
     ocr_filename := filename a;
     success := false;
     ocrText := None;
     extractedData := None;
     error := Some message |}.

(** [message] is what is recorded of the thrown [e]: the message of an
    [Error] object, the rendering of a value that is not one. *)
Definition recorded_message (e : thrown) (message : string) : Prop :=
  match e with
  | ErrorObj _ m => message = m
  | ThrownValue rendering => message = rendering
  end.

(** [entry] is the entry of attachment [a] when its turn of the loop starts
    after the calls of [h]: the attachment itself, with the result of its
    OCR run, or with the failure record of what that run throws, and with
    no [ocrResult] when it is not a PDF. *)
Definition entry_for (key : string) (w : World) (id : string) (h : list AnyEvent)
    (a : Attachment) (entry : EnrichedAttachment) : Prop :=
  attachment_of entry = a /\
  if is_pdf a
  then match fst (run w (processPDFWithMistralOCR key id a) h) with
       | inr ocr => ocrResult entry = Some ocr
       | inl e =>
           exists message,
             recorded_message e message
             /\ ocrResult entry = Some (failure_record a message)
       end
  else ocrResult entry = None.

(** The OCR call fails: [fetch] rejects, or the response is not OK. *)
Definition ocr_call_failed (answer : result Response) : Prop :=
  match answer with
  | inl _ => True
  | inr response => ok response = false
  end.

(** The error a failed OCR call ends in: what [fetch] rejected with, or the
    [Error] made from the status line. *)
Definition ocr_call_error (answer : result Response) : thrown :=
  match answer with
  | inl e => e
  | inr response =>
      ErrorObj "Error"
        ("Mistral OCR API error: " +:+ pretty (status response) +:+ " "
           +:+ statusText response)
  end.

(** The message of a failed OCR call: the status line of a response that
    is not OK, the message of the [Error] that [fetch] rejected with, or
    the rendering of what it rejected with when that is no [Error]. *)
Definition ocr_failure_message (answer : result Response) : string :=
  match answer with
  | inl (ErrorObj _ message) => message
  | inl (ThrownValue rendering) => rendering
  | inr response =>
      "Mistral OCR API error: " +:+ pretty (status response) +:+ " "
        +:+ statusText response
  end.

(** The argument of [captureException] in [processPDFWithMistralOCR]. *)
Definition capture_extra (id : string) (a : Attachment) : JsVal :=
  VObj [("extra",
         VObj [("messageId", VStr id);
               ("attachmentId", VStr (attachmentId a));
               ("filename", VStr (filename a))])].

(** The calls of an OCR run up to the OCR call: the attachment is asked
    for and its retrieval is logged. *)
Definition retrieval_calls (id : string) (a : Attachment) (d : AttachmentData)
  : list AnyEvent :=
  [any (GetAttachment id (attachmentId a));
   any (LoggerInfo "Retrieved PDF attachment"
          (VObj [("filename", VStr (filename a)); ("size", JsObj.of_nat (size d))]))].

(** The calls of an OCR run whose OCR call fails with [e], in order. *)
Definition failed_ocr_calls (key id : string) (a : Attachment) (d : AttachmentData)
    (e : thrown) : list AnyEvent :=
  retrieval_calls id a d
  ++ [any (Fetch MISTRAL_OCR_ENDPOINT (ocr_request key a d));
      any (CaptureException e (capture_extra id a))].

(** The error class the specification names. *)
Definition is_ExtractionUnavailable (e : thrown) : Prop :=
  error_name e = Some "ExtractionUnavailable".

(** ** Sample data *)

Module Sample.

Definition text : string :=
  "Acme Legal Services Invoice #A123" +:+ String "010" "" +:+
  "Total: $450.00" +:+ String "010" "" +:+ "Due: 12/01/2025".

Definition bill : Attachment :=
  {| attachmentId := "att-1"; filename := "bill.pdf";
     mimeType := "application/pdf"; attachment_rest := [] |}.

Definition notes : Attachment :=
  {| attachmentId := "att-2"; filename := "notes.txt";
     mimeType := "text/plain"; attachment_rest := [] |}.

Definition scan : Attachment :=
  {| attachmentId := "att-3"; filename := "scan.pdf";
     mimeType := "application/pdf"; attachment_rest := [] |}.

Definition message (all : option (list Attachment)) : ParsedMessage :=
  {| message_id := "msg-1"; subject := "Your March invoice";
     headers_from := "Acme <billing@acme.example>";
     attachments := all; message_rest := [] |}.

Definition key : string := "test-key".

Definition provider : string -> string -> result AttachmentData :=
  fun _ attachment_id =>
    if String.eqb attachment_id "att-3"
    then inl (ErrorObj "Error" "attachment not found")
    else inr {| data := "JVBERi0xLjQK"; size := 9 |}.

Definition response_ok : Response :=
  {| status := 200; statusText := "OK";
     json := inr (VObj [("text", VStr text); ("json", VObj [])]) |}.

Definition response_down : Response :=
  {| status := 503; statusText := "Service Unavailable";
     json := inl (ErrorObj "SyntaxError" "Unexpected end of JSON input") |}.

(** The OCR service answers. *)
Definition healthy : World := world_of provider (fun _ _ => inr response_ok).

(** The OCR service answers 503. *)
Definition down : World := world_of provider (fun _ _ => inr response_down).

(** The network is unreachable. *)
Definition offline : World :=
  world_of provider (fun _ _ => inl (TypeError "fetch failed")).

End Sample.

(** The names of the own properties of an object. *)
Definition own_keys (v : JsVal) : list string :=
  match v with
  | VObj fields => List.map fst fields
  | _ => []
  end.

(** The extraction with every optional field absent. *)
Definition empty_extraction : ExtractedData :=
  {| documentType := None; totalAmount := None; dueDate := None;
     vendor := None; invoiceNumber := None |}.

(** The keywords of the document-type chain. *)
Definition typeKeywords : list string :=
  ["phone"; "telecom"; "legal"; "attorney"; "invoice"].

(** None of the billing patterns matches [text]: no amount pattern, no due
    date, invoice or vendor pattern, and no keyword of a document type. *)
Definition no_pattern_matches (text : string) : Prop :=
  Forall (fun pattern => Regex.exec pattern text = None) Patterns.amountPatterns
  /\ Regex.exec Patterns.dueDatePattern text = None
  /\ Regex.exec Patterns.invoicePattern text = None
  /\ Regex.exec Patterns.vendorPattern text = None
  /\ Forall (fun keyword => Js.includes (Js.toLowerCase text) keyword = false) typeKeywords.

(** The result carries [confidence = 0], as the specification words it. *)
Definition carries_confidence_zero (d : ExtractedData) : Prop :=
  JsObj.get (extractedData_object d) "confidence" = inr (VNum (Num 0)).

(** The result carries some confidence value. *)
Definition carries_confidence (d : ExtractedData) : Prop :=
  exists c, JsObj.get (extractedData_object d) "confidence" = inr c /\ c ≠ VUndefined.

(** The document-type chain as the ordered rule list the specification
    describes: keyword set and type, in declaration order. *)
Definition classification_rules : list (list string * string) :=
  [(["phone"; "telecom"], "phone_bill");
   (["legal"; "attorney"], "legal_invoice");
   (["invoice"], "invoice")].

Definition rule_matches (text : string) (rule : list string * string) : bool :=
  existsb (Js.includes (Js.toLowerCase text)) (fst rule).

(** First match wins. *)
Fixpoint first_match (rules : list (list string * string)) (text : string)
  : option string :=
  match rules with
  | [] => None
  | rule :: rest =>
      if rule_matches text rule then Some (snd rule) else first_match rest text
  end.

(** The pairwise reading of "first match wins": of two rules that match,
    the one declared first gives the type. *)
Definition earlier_of_two_wins (text : string) : Prop :=
  forall i j rule_i rule_j,
    i < j ->
    classification_rules !! i = Some rule_i ->
    classification_rules !! j = Some rule_j ->
    rule_matches text rule_i = true ->
    rule_matches text rule_j = true ->
    classify text = Some (snd rule_i).

(** [c] is the character [k] or, when [k] is a small letter a-z, the
    capital letter of [k]: 32 code units below it. *)
Definition in_any_case (k c : ascii) : Prop :=
  c = k
  \/ ((97 <= N_of_ascii k <= 122)%N /\ (N_of_ascii c + 32 = N_of_ascii k)%N).

(** [word] reads [keyword], character by character, whatever the case of
    its letters. *)
Definition written_in_any_case (keyword word : string) : Prop :=
  Forall2 in_any_case (list_ascii_of_string keyword) (list_ascii_of_string word).

(** [keyword] occurs in [s] case-insensitively: some part of [s] reads
    [keyword] whatever the case of its letters. *)
Definition occurs_in_any_case (keyword s : string) : Prop :=
  exists pre word post, s = pre +:+ word +:+ post /\ written_in_any_case keyword word.

(** A character below U+0080 that is no capital letter. *)
Definition plain (k : ascii) : Prop :=
  (Js.code k < 128)%N /\ Js.is_upper k = false.

(** [keyword] occurs in [s] whatever the case of the letters of [s]. *)
Definition occurs_ci (keyword s : string) : Prop :=
  exists pre mid post, s = pre +:+ mid +:+ post /\ Js.toLowerCase mid = keyword.

(** The words and the sign that the billing patterns and the document-type
    chain look for. *)
Definition triggerWords : list string :=
  ["total"; "amount"; "due"; "invoice"; "bill"; "phone"; "telecom"; "legal"; "attorney"].

(** A text without a dollar sign and without any trigger word, in any case
    of its letters. *)
Definition trigger_free (text : string) : Prop :=
  Js.includes text "$" = false
  /\ Forall (fun word => ~ occurs_ci word text) triggerWords.

(** A word of the letters a-z. *)
Definition lower_word (w : string) : Prop :=
  Forall (fun a => Js.is_lower a = true) (list_ascii_of_string w).

(** ** The graph merge engine

    The repository holds the graph data model as a design document and no
    implementation of the merge; the engine below follows the algorithm of
    the specification, section 4.3, step by step. *)

Module Merge.

Inductive RecordKind : Type := Email | PhoneCall | Document.

Inductive EventStatus : Type := draft | approved | rejected.

Inductive EdgeType : Type :=
| MANAGES | REPRESENTS | MEMBER_OF | SENT | TO | CC | BCC
| PARTICIPATED_IN | AUTHORED | RELATES_TO | GENERATED | FOR_CASE.

(** A node, by its label and identity key. *)
Inductive NodeRef : Type :=
| PersonNode (identity : string)
| RecordNode (key : string)
| CaseNode (caseNumber : string)
| EventNode (eventId : nat).

(** An edge is keyed by (source, type, target). *)
Definition Edge : Type := NodeRef * EdgeType * NodeRef.

#[global] Instance RecordKind_eq_dec : EqDecision RecordKind.
Proof. solve_decision. Defined.

#[global] Instance EventStatus_eq_dec : EqDecision EventStatus.
Proof. solve_decision. Defined.

#[global] Instance EdgeType_eq_dec : EqDecision EdgeType.
Proof. solve_decision. Defined.

#[global] Instance NodeRef_eq_dec : EqDecision NodeRef.
Proof. solve_decision. Defined.

Definition EdgeType_code (t : EdgeType) : nat :=
  match t with
  | MANAGES => 0 | REPRESENTS => 1 | MEMBER_OF => 2 | SENT => 3 | TO => 4
  | CC => 5 | BCC => 6 | PARTICIPATED_IN => 7 | AUTHORED => 8
  | RELATES_TO => 9 | GENERATED => 10 | FOR_CASE => 11
  end.

Definition EdgeType_of_code (n : nat) : option EdgeType :=
  match n with
  | 0 => Some MANAGES | 1 => Some REPRESENTS | 2 => Some MEMBER_OF
  | 3 => Some SENT | 4 => Some TO | 5 => Some CC | 6 => Some BCC
  | 7 => Some PARTICIPATED_IN | 8 => Some AUTHORED | 9 => Some RELATES_TO
  | 10 => Some GENERATED | 11 => Some FOR_CASE | _ => None
  end.

#[global] Program Instance EdgeType_countable : Countable EdgeType :=
  inj_countable EdgeType_code EdgeType_of_code _.
Next Obligation. intros []; reflexivity. Qed.

Definition NodeRef_code (n : NodeRef) : string + string + string + nat :=
  match n with
  | PersonNode i => inl (inl (inl i))
  | RecordNode k => inl (inl (inr k))
  | CaseNode c => inl (inr c)
  | EventNode e => inr e
  end.

Definition NodeRef_of_code (c : string + string + string + nat) : NodeRef :=
  match c with
  | inl (inl (inl i)) => PersonNode i
  | inl (inl (inr k)) => RecordNode k
  | inl (inr c) => CaseNode c
  | inr e => EventNode e
  end.

#[global] Program Instance NodeRef_countable : Countable NodeRef :=
  inj_countable' NodeRef_code NodeRef_of_code _.
Next Obligation. intros []; reflexivity. Qed.

(** The attributes of a Case node. *)
Record Case : Type := mkCase {
  caseName : string;
  caseOpen : bool
}.

(** The attributes of a CommunicationRecord node; its natural key is the
    key it is stored under. *)
Record CommunicationRecord : Type := mkCommunicationRecord {
  kind : RecordKind;
  timestamp : Z;
  summary : option string;
  sourcePointer : option string
}.

(** A BillableEvent; it is stored under (record key, case number). *)
Record BillableEvent : Type := mkBillableEvent {
  eventId : nat;
  description : string;
  eventTimestamp : Z;
  suggestedDurationHours : Q;
  status : EventStatus;
  sourceType : RecordKind
}.

Inductive ParticipantRole : Type :=
| Sender | Recipient | CcRecipient | BccRecipient | CallParticipant | Author.

(** What the merge receives: the record, with its participants as the
    Entity Resolver resolved them. *)
Record NormalizedRecord : Type := mkNormalizedRecord {
  recordKey : string;
  recordKind : RecordKind;
  recordTimestamp : Z;
  recordSummary : option string;
  recordSource : option string;
  participants : list (ParticipantRole * string)
}.

(** The contract of the extraction collaborator: the billing fields and a
    confidence. *)
Record BillingExtraction : Type := mkBillingExtraction {
  billing : ExtractedData;
  confidence : Q
}.

Record Graph : Type := mkGraph {
  cases : gmap string Case;
  records : gmap string CommunicationRecord;
  events : gmap (string * string) BillableEvent;
  edges : gset Edge;
  nextEventId : nat
}.

Inductive MergeError : Type :=
| UnknownCaseError (caseKey : string)
| DataIntegrityError (event : nat) (caseKey : string).

Section Engine.

(** What the specification leaves to the implementer: which document types
    are billable, and how the description and the suggested duration of an
    event are drawn from a record and its extraction. *)
Variable billableType : string -> bool.
Variable describe : NormalizedRecord -> BillingExtraction -> string.
Variable suggestDuration : NormalizedRecord -> BillingExtraction -> Q.

(** A summary or source pointer that is there and not empty. *)
Definition present (o : option string) : bool :=
  match o with
  | Some s => negb (String.eqb s "")
  | None => false
  end.

(** Enrichment: the new value is taken only where the old one is absent. *)
Definition enrich (old new : option string) : option string :=
  if present old then old else if present new then new else old.

(** Modelled from the spec: step 1 of the merge, the upsert of the
    CommunicationRecord node by its natural key (the engine itself is not
    in the repository). *)
Definition upsertRecord (r : NormalizedRecord) (g : Graph) : Graph :=
  let node :=
    match records g !! recordKey r with
    | None =>
        {| kind := recordKind r; timestamp := recordTimestamp r;
           summary := recordSummary r; sourcePointer := recordSource r |}
    | Some old =>
        {| kind := kind old; timestamp := timestamp old;
           summary := enrich (summary old) (recordSummary r);
           sourcePointer := enrich (sourcePointer old) (recordSource r) |}
    end in
  {| cases := cases g;
     records := <[recordKey r := node]> (records g);
     events := events g;
     edges := edges g;
     nextEventId := nextEventId g |}.

Definition participantEdge (key : string) (p : ParticipantRole * string) : Edge :=
  match fst p with
  | Sender => (PersonNode (snd p), SENT, RecordNode key)
  | Recipient => (RecordNode key, TO, PersonNode (snd p))
  | CcRecipient => (RecordNode key, CC, PersonNode (snd p))
  | BccRecipient => (RecordNode key, BCC, PersonNode (snd p))
  | CallParticipant => (PersonNode (snd p), PARTICIPATED_IN, RecordNode key)
  | Author => (PersonNode (snd p), AUTHORED, RecordNode key)
  end.

Definition addEdges (new : gset Edge) (g : Graph) : Graph :=
  {| cases := cases g; records := records g; events := events g;
     edges := edges g ∪ new; nextEventId := nextEventId g |}.

Definition participantEdges (r : NormalizedRecord) : gset Edge :=
  list_to_set (List.map (participantEdge (recordKey r)) (participants r)).

Definition relatesTo (r : NormalizedRecord) (c : string) : Edge :=
  (RecordNode (recordKey r), RELATES_TO, CaseNode c).

Definition generated (r : NormalizedRecord) (event : nat) : Edge :=
  (RecordNode (recordKey r), GENERATED, EventNode event).

Definition forCase (event : nat) (c : string) : Edge :=
  (EventNode event, FOR_CASE, CaseNode c).

(** Modelled from the spec: step 2, the participant and authorship edges
    of the record. *)
Definition upsertParticipants (r : NormalizedRecord) (g : Graph) : Graph :=
  addEdges (participantEdges r) g.

(** Modelled from the spec: the billing signal of step 4, a confidence
    that is not zero with an amount or a billable document type. *)
Definition hasBillingSignal (x : option BillingExtraction) : bool :=
  match x with
  | None => false
  | Some x =>
      negb (Qeq_bool (confidence x) 0)
      && (match totalAmount (billing x) with Some _ => true | None => false end
          || match documentType (billing x) with
             | Some t => billableType t
             | None => false
             end)
  end.

(** Modelled from the spec: step 4, the upsert of the one BillableEvent of
    (record, case).  A new event is a draft with a fresh id; an event that
    is still a draft takes the description and the duration of the
    extraction; an approved or rejected event is left as it is. *)
Definition upsertEvent (r : NormalizedRecord) (x : BillingExtraction)
    (c : string) (g : Graph) : Graph :=
  match events g !! (recordKey r, c) with
  | None =>
      let event :=
        {| eventId := nextEventId g;
           description := describe r x;
           eventTimestamp := recordTimestamp r;
           suggestedDurationHours := suggestDuration r x;
           status := draft;
           sourceType := recordKind r |} in
      {| cases := cases g; records := records g;
         events := <[(recordKey r, c) := event]> (events g);
         edges := edges g ∪ {[ generated r (nextEventId g) ]};
         nextEventId := S (nextEventId g) |}
  | Some event =>
      match status event with
      | draft =>
          let event' :=
            {| eventId := eventId event;
               description := describe r x;
               eventTimestamp := eventTimestamp event;
               suggestedDurationHours := suggestDuration r x;
               status := draft;
               sourceType := sourceType event |} in
          {| cases := cases g; records := records g;
             events := <[(recordKey r, c) := event']> (events g);
             edges := edges g;
             nextEventId := nextEventId g |}
      | approved | rejected => g
      end
  end.

(** The FOR_CASE edges that leave an event. *)
Definition forCaseEdges (event : nat) (g : Graph) : gset Edge :=
  filter (fun e : Edge => e.1.1 = EventNode event /\ e.1.2 = FOR_CASE) (edges g).

(** Modelled from the spec: step 5, the denormalized FOR_CASE edge is
    verified against the case of the RELATES_TO edge, then written; a
    mismatch is an error and is not repaired. *)
Definition ensureForCase (r : NormalizedRecord) (c : string) (g : Graph)
  : MergeError + Graph :=
  match events g !! (recordKey r, c) with
  | None => inr g
  | Some event =>
      if bool_decide (forCaseEdges (eventId event) g ⊆ {[ forCase (eventId event) c ]})
      then inr (addEdges {[ forCase (eventId event) c ]} g)
      else inl (DataIntegrityError (eventId event) c)
  end.

(** Modelled from the spec: [merge(record, extraction, caseRef)], steps 1
    to 5 in their order.  Without a case the record and its participants
    are merged and nothing else. *)
Definition merge (g : Graph) (r : NormalizedRecord) (x : option BillingExtraction)
    (caseRef : option string) : MergeError + Graph :=
  let g1 := upsertRecord r g in
  let g2 := upsertParticipants r g1 in
  match caseRef with
  | None => inr g2
  | Some c =>
      match cases g2 !! c with
      | None => inl (UnknownCaseError c)
      | Some _ =>
          let g3 := addEdges {[ relatesTo r c ]} g2 in
          let g4 :=
            match x with
            | Some x' => if hasBillingSignal x then upsertEvent r x' c g3 else g3
            | None => g3
            end in
          ensureForCase r c g4
      end
  end.

(** Modelled from the spec: the state of the store after a call of
    [merge], which runs in one transaction: a failed merge leaves the
    graph as it was. *)
Definition mergeState (r : NormalizedRecord) (x : option BillingExtraction)
    (caseRef : option string) (g : Graph) : Graph :=
  match merge g r x caseRef with
  | inr g' => g'
  | inl _ => g
  end.

(** *** Predicates of the statements *)

(** The record node is settled: merging the record again changes nothing
    in it. *)
Definition recordSettled (r : NormalizedRecord) (g : Graph) : Prop :=
  exists node,
    records g !! recordKey r = Some node
    /\ enrich (summary node) (recordSummary r) = summary node
    /\ enrich (sourcePointer node) (recordSource r) = sourcePointer node.

(** The event of (record, case) is settled: it is there, and while it is a
    draft it has the description and the duration of the extraction. *)
Definition eventSettled (r : NormalizedRecord) (x : BillingExtraction) (c : string)
    (g : Graph) : Prop :=
  exists event,
    events g !! (recordKey r, c) = Some event
    /\ (status event = draft ->
        description event = describe r x
        /\ suggestedDurationHours event = suggestDuration r x).

(** The graph holds everything a merge of the triple writes. *)
Definition settled (r : NormalizedRecord) (x : option BillingExtraction)
    (caseRef : option string) (g : Graph) : Prop :=
  recordSettled r g
  /\ participantEdges r ⊆ edges g
  /\ match caseRef with
     | None => True
     | Some c =>
         is_Some (cases g !! c)
         /\ relatesTo r c ∈ edges g
         /\ (forall x', x = Some x' -> hasBillingSignal x = true -> eventSettled r x' c g)
         /\ (forall event, events g !! (recordKey r, c) = Some event ->
                           forCaseEdges (eventId event) g ⊆ {[ forCase (eventId event) c ]}
                           /\ forCase (eventId event) c ∈ edges g)
     end.

End Engine.

(** *** Scenario A of the specification *)

Module Scenario.

Definition billableType (t : string) : bool :=
  String.eqb t "legal_invoice" || String.eqb t "invoice" || String.eqb t "phone_bill".

Definition describe (r : NormalizedRecord) (x : BillingExtraction) : string :=
  match documentType (billing x) with
  | Some t => t +:+ " from " +:+ recordKey r
  | None => "billable activity from " +:+ recordKey r
  end.

Definition suggestDuration (r : NormalizedRecord) (x : BillingExtraction) : Q := 1 # 4.

Definition email : NormalizedRecord :=
  {| recordKey := "<msg-1@mail.example>";
     recordKind := Email;
     recordTimestamp := 1762300800000;
     recordSummary := Some "Invoice for November";
     recordSource := Some "gs://raw/msg-1.eml";
     participants := [(Sender, "billing@acme.example"); (Recipient, "attorney@firm.example")] |}.

Definition extraction : BillingExtraction :=
  {| billing :=
       {| documentType := Some "legal_invoice"; totalAmount := Some (Num (450 # 1));
          dueDate := None; vendor := None; invoiceNumber := None |};
     confidence := 4 # 5 |}.

Definition caseKey : string := "CV-2025-123".

Definition store : Graph :=
  {| cases := {[ caseKey := {| caseName := "Acme v. Doe"; caseOpen := true |} ]};
     records := ∅; events := ∅; edges := ∅; nextEventId := 0 |}.

Definition once : Graph :=
  mergeState billableType describe suggestDuration email (Some extraction) (Some caseKey) store.

End Scenario.

End Merge.

(** ** What a pattern matches

    The text a pattern matches, told without the matcher: [matches r cap m
    cap'] says that [r] matches exactly the characters [m] and turns the
    capture [cap] into [cap']. *)

Module RegexSpec.
Import Regex.

(** Every character of [s] is in the class [p]. *)
Fixpoint all_of (p : ascii -> bool) (s : string) : bool :=
  match s with
  | EmptyString => true
  | String c s' => p c && all_of p s'
  end.

Definition within (hi : option nat) (n : nat) : Prop :=
  match hi with
  | Some h => n <= h
  | None => True
  end.

Inductive matches : regex -> option string -> string -> option string -> Prop :=
| matches_Eps cap : matches Eps cap "" cap
| matches_Chr p c cap : p c = true -> matches (Chr p) cap (String c "") cap
| matches_Seq r1 r2 cap m1 cap1 m2 cap2 :
    matches r1 cap m1 cap1 -> matches r2 cap1 m2 cap2 ->
    matches (Seq r1 r2) cap (m1 +:+ m2) cap2
| matches_Alt_l r1 r2 cap m cap' : matches r1 cap m cap' -> matches (Alt r1 r2) cap m cap'
| matches_Alt_r r1 r2 cap m cap' : matches r2 cap m cap' -> matches (Alt r1 r2) cap m cap'
| matches_Rep greedy p lo hi cap m :
    all_of p m = true -> lo <= String.length m -> within hi (String.length m) ->
    matches (Rep greedy p lo hi) cap m cap
| matches_Group r cap m cap' : matches r cap m cap' -> matches (Group r) cap m (Some m)
| matches_Bol cap : matches Bol cap "" cap.

End RegexSpec.

(** ** Predicates of the further statements *)

(** [part] occurs in [s] as it is written. *)
Definition occurs (part s : string) : Prop :=
  exists pre post, s = pre +:+ part +:+ post.

(** A text of the shape of a captured amount: digits, then possibly a dot
    and further digits. *)
Definition amount_shape (c : string) : Prop :=
  exists int dot frac,
    c = int +:+ dot +:+ frac
    /\ RegexSpec.all_of Js.is_digit int = true /\ 1 <= String.length int
    /\ (dot = "" \/ dot = ".")
    /\ RegexSpec.all_of Js.is_digit frac = true.

(** A text of the shape of a captured date: one or two digits, a slash or
    a dash, one or two digits, a slash or a dash, two to four digits. *)
Definition date_shape (c : string) : Prop :=
  exists d1 s1 d2 s2 d3,
    c = d1 +:+ String s1 (d2 +:+ String s2 d3)
    /\ RegexSpec.all_of Js.is_digit d1 = true
    /\ 1 <= String.length d1 <= 2
    /\ Patterns.slash_or_dash s1 = true
    /\ RegexSpec.all_of Js.is_digit d2 = true
    /\ 1 <= String.length d2 <= 2
    /\ Patterns.slash_or_dash s2 = true
    /\ RegexSpec.all_of Js.is_digit d3 = true
    /\ 2 <= String.length d3 <= 4.

(** A text of the shape of a captured invoice number: possibly a hash sign,
    then one word character or more. *)
Definition invoice_shape (c : string) : Prop :=
  exists hash word,
    c = hash +:+ word
    /\ (hash = "" \/ hash = "#")
    /\ RegexSpec.all_of Js.is_word word = true
    /\ 1 <= String.length word.

(** A number that is not NaN and not negative: the positive zero, a
    positive number or [Infinity]. *)
Definition nonnegative (n : JsNumber) : Prop :=
  match n with
  | Num q => (0 <= q)%Q
  | Infinity => True
  | NaN | NegZero | NegInfinity => False
  end.

(** No white space at either end. *)
Definition trimmed (s : string) : Prop :=
  match s with
  | EmptyString => True
  | String c _ => Js.is_space c = false
  end
  /\ (forall pre c, s = pre +:+ String c "" -> Js.is_space c = false).

(** [c] stands in [text] right after a word that reads [label] in lower
    case, with only colons and white space, then [sign], in between. *)
Definition follows_label (label sign c text : string) : Prop :=
  exists pre word gap post,
    text = pre +:+ word +:+ gap +:+ sign +:+ c +:+ post
    /\ Js.toLowerCase word = label
    /\ RegexSpec.all_of Patterns.colon_or_space gap = true.

(** Where a captured amount stands: after "total" or "amount", possibly
    with a dollar sign before it, or right after a dollar sign. *)
Definition amount_place (c text : string) : Prop :=
  (exists sign, (sign = "" \/ sign = "$")
                /\ (follows_label "total" sign c text \/ follows_label "amount" sign c text))
  \/ occurs ("$" +:+ c) text.

(** [pre] ends where a line starts: it is empty or ends with a line
    terminator. *)
Definition line_start (pre : string) : Prop :=
  pre = "" \/ exists pre0 c, pre = pre0 +:+ String c "" /\ Js.is_line_terminator c = true.

(** The character before the position that [pre] leads to. *)
Fixpoint last_of (prev : option ascii) (pre : string) : option ascii :=
  match pre with
  | EmptyString => prev
  | String c pre' => last_of (Some c) pre'
  end.

Definition capture_of (ev : AnyEvent) : option (thrown * JsVal) :=
  match projT2 ev with
  | CaptureException e extra => Some (e, extra)
  | _ => None
  end.

(** The errors reported to [captureException] among [made], in order, each
    with the context it was reported with. *)
Definition captured (made : list AnyEvent) : list (thrown * JsVal) :=
  omap capture_of made.

(** A result of a successful OCR run for [a]: the text and the extraction
    drawn from that same text. *)
Definition success_result (a : Attachment) (text : string) : MistralOCRResult :=
  {| ocr_attachmentId := attachmentId a;
     ocr_filename := filename a;
     success := true;
     ocrText := Some (VStr text);
     extractedData := Some (extractFromText text);
     error := None |}.

(** [entry] is a well-formed entry for the attachment [a] of the message
    [id]: it holds [a]; when [a] is not a PDF it has no [ocrResult]; when
    [a] is a PDF, its [ocrResult] is what an OCR run of [a] ended in: the
    success record with the text and the extraction of that text when the
    run returned, and when the run threw, the failure record ([success]
    false, neither text nor data) with the message of what was thrown. *)
Definition entry_well_formed (key : string) (w : World) (id : string)
    (a : Attachment) (entry : EnrichedAttachment) : Prop :=
  attachment_of entry = a /\
  if is_pdf a
  then exists h,
         match fst (run w (processPDFWithMistralOCR key id a) h) with
         | inr _ => exists text, ocrResult entry = Some (success_result a text)
         | inl e =>
             exists message,
               recorded_message e message
               /\ ocrResult entry = Some (failure_record a message)
         end
  else ocrResult entry = None.

(** The provider rejects every request for an attachment. *)
Definition provider_down (w : World) : Prop :=
  forall h id attachment_id,
    exists e, w h _ (GetAttachment id attachment_id) = inl e.

(** The entry is the failure record of a request that the provider
    rejected: [success] false, neither text nor data, and as [error] the
    message of what the provider rejected the request for its attachment
    with. *)
Definition failed_entry (w : World) (id : string) (entry : EnrichedAttachment) : Prop :=
  exists h e message,
    w h _ (GetAttachment id (attachmentId (attachment_of entry))) = inl e
    /\ recorded_message e message
    /\ ocrResult entry = Some (failure_record (attachment_of entry) message).

(** One turn of the loop: [enrich_one] on [a], at some point of the run,
    pushes [entry] and makes the calls [made]. *)
Definition turn (key : string) (w : World) (id : string)
    (a : Attachment) (entry : EnrichedAttachment) (made : list AnyEvent) : Prop :=
  exists h enriched,
    run w (enrich_one key id a enriched) h = (inr (enriched ++ [entry]), made).

Definition error_log_of (ev : AnyEvent) : option JsVal :=
  match projT2 ev with
  | LoggerError _ payload => Some payload
  | _ => None
  end.

(** The payloads logged with [logger.error] among [made], in order. *)
Definition error_logs (made : list AnyEvent) : list JsVal :=
  omap error_log_of made.

(** What the loop logs for a failure entry. *)
Definition failure_log (entry : EnrichedAttachment) : option JsVal :=
  match ocrResult entry with
  | Some r =>
      if success r then None
      else Some (VObj [("filename", VStr (ocr_filename r));
                       ("error", VStr (default "" (error r)))])
  | None => None
  end.

(** [message'] says at least what [message] says: its subject and its from
    header hold those of [message], and its attachments hold all the
    attachments of [message]. *)
Definition extends_message (message message' : ParsedMessage) : Prop :=
  occurs (subject message) (subject message')
  /\ occurs (headers_from message) (headers_from message')
  /\ (forall all, attachments message = Some all ->
        exists all', attachments message' = Some all' /\ all ⊆ all').

(** A world whose e-mail provider gives no attachment. *)
Definition no_provider : World :=
  world_of (fun _ _ => inl (ErrorObj "Error" "quota exceeded"))
           (fun _ _ => inr Sample.response_ok).

(** * Properties *)

(** ** Running a computation *)

Section RunLemmas.
Context (w : World).

Lemma run_bind {A B} (p : Prog A) (f : A -> Prog B) (h : list AnyEvent) :
  run w (Async.bind p f) h =
  (fst (run w (f (fst (run w p h))) (h ++ snd (run w p h))),
   snd (run w p h) ++ snd (run w (f (fst (run w p h))) (h ++ snd (run w p h)))).
Proof.
  revert h. induction p as [a | X e k IH]; intros h; cbn.
  - rewrite app_nil_r. destruct (run w (f a) h); reflexivity.
  - rewrite IH. destruct (run w (k (w h X e)) (h ++ [any e])) as [a made1].
    cbn. rewrite <- app_assoc. reflexivity.
Qed.
End RunLemmas.

Lemma is_pdf_true (a : Attachment) : is_pdf a = true <-> mimeType a = "application/pdf".
Proof. unfold is_pdf. apply String.eqb_eq. Qed.

Lemma is_pdf_false (a : Attachment) : is_pdf a = false <-> mimeType a ≠ "application/pdf".
Proof. unfold is_pdf. apply String.eqb_neq. Qed.

Lemma filter_is_pdf_nil (all : list Attachment) :
  Forall (fun a => mimeType a ≠ "application/pdf") all -> List.filter is_pdf all = [].
Proof.
  induction 1 as [| a l Ha _ IH]; cbn; [reflexivity |].
  apply is_pdf_false in Ha. rewrite Ha. exact IH.
Qed.

Lemma processPDFAttachments_quiet
    (key : string) (w : World) (message : ParsedMessage) :
  no_pdf message ->
  value w (processPDFAttachments key message)
    = inr {| message_of := message; enrichedAttachments := None |}
  /\ provider_calls (calls w (processPDFAttachments key message)) = []
  /\ ocr_requests (calls w (processPDFAttachments key message)) = [].
Proof.
  unfold no_pdf, value, calls, processPDFAttachments.
  destruct (attachments message) as [[| a l] |]; intros H; cbn; auto.
  apply filter_is_pdf_nil in H. cbn in H. rewrite H. cbn. auto.
Qed.

(** ** One OCR run and the loop over the attachments *)

Ltac unfold_async :=
  unfold Async.try_catch, Async.bind_ok, Async.exec, Async.call, Async.lift,
    Async.throw, Async.pure in *.

Ltac step_world :=
  match goal with
  | |- context [match ?w ?h (result AttachmentData) ?e with _ => _ end] =>
      destruct (w h (result AttachmentData) e) eqn:?
  | |- context [match ?w ?h (result Response) ?e with _ => _ end] =>
      destruct (w h (result Response) e) eqn:?
  | |- context [if negb (ok ?r) then _ else _] => destruct (ok r) eqn:?
  | |- context [match json ?r with _ => _ end] => destruct (json r) eqn:?
  | |- context [match JsObj.get ?r ?k with _ => _ end] => destruct (JsObj.get r k) eqn:?
  | |- context [match extractBillingData ?r with _ => _ end] =>
      destruct (extractBillingData r) eqn:?
  end; cbn -[pretty extractBillingData JsObj.get].

Lemma ocr_calls (key : string) (w : World) (id : string) (a : Attachment) (h : list AnyEvent) :
  provider_calls (snd (run w (processPDFWithMistralOCR key id a) h)) = [(id, attachmentId a)]
  /\ (map form_filename (ocr_requests (snd (run w (processPDFWithMistralOCR key id a) h)))
      `sublist_of` [filename a]).
Proof.
  unfold processPDFWithMistralOCR, ocr_attempt. unfold_async.
  cbn -[pretty extractBillingData JsObj.get].
  repeat step_world; (split; [reflexivity |]); cbn;
    first [apply sublist_cons, sublist_nil | apply sublist_skip, sublist_nil].
Qed.

Lemma provider_calls_app (l1 l2 : list AnyEvent) :
  provider_calls (l1 ++ l2) = provider_calls l1 ++ provider_calls l2.
Proof. apply omap_app. Qed.

Lemma ocr_requests_app (l1 l2 : list AnyEvent) :
  ocr_requests (l1 ++ l2) = ocr_requests l1 ++ ocr_requests l2.
Proof. apply omap_app. Qed.

Lemma enrich_one_run (key : string) (w : World) (id : string) (a : Attachment)
    (enriched : list EnrichedAttachment) (h : list AnyEvent) :
  exists entry,
    fst (run w (enrich_one key id a enriched) h) = inr (enriched ++ [entry])
    /\ entry_for key w id h a entry
    /\ turn_calls id a (snd (run w (enrich_one key id a enriched) h)).
Proof.
  unfold enrich_one, entry_for, turn_calls.
  destruct (is_pdf a) eqn:Hpdf.
  - destruct (ocr_calls key w id a h) as [Hget Hfetch].
    remember (processPDFWithMistralOCR key id a) as p eqn:Hp. clear Hp.
    unfold Async.try_catch, Async.bind_ok.
    rewrite !run_bind. cbn [fst snd].
    destruct (run w p h) as [[e | ocr] made] eqn:Hrun; cbn [fst snd] in *.
    + exists (failure_entry a e). cbn [run Async.exec Async.bind Async.call Async.pure fst snd].
      rewrite !app_nil_r, provider_calls_app, ocr_requests_app, Hget.
      cbn. rewrite !app_nil_r. repeat split; auto.
      exists (error_message e). split; [destruct e; reflexivity | reflexivity].
    + eexists. cbn [run Async.pure fst snd]. rewrite !app_nil_r. repeat split; auto.
  - cbn. eexists. repeat split; auto.
Qed.

Lemma enrich_loop_run (key : string) (w : World) (id : string) (todo : list Attachment) :
  forall (enriched : list EnrichedAttachment) (h : list AnyEvent),
  exists entries,
    fst (run w (enrich_loop key id todo enriched) h) = inr (enriched ++ entries)
    /\ Forall2 (fun a entry => exists h', entry_for key w id h' a entry) todo entries
    /\ provider_calls (snd (run w (enrich_loop key id todo enriched) h))
       = map (fun a => (id, attachmentId a)) (List.filter is_pdf todo)
    /\ (map form_filename (ocr_requests (snd (run w (enrich_loop key id todo enriched) h)))
        `sublist_of` map filename (List.filter is_pdf todo)).
Proof.
  induction todo as [| a rest IH]; intros enriched h.
  - exists []. cbn. rewrite app_nil_r. repeat split; auto.
  - cbn [enrich_loop]. unfold Async.bind_ok. rewrite run_bind. cbn [fst snd].
    destruct (enrich_one_run key w id a enriched h) as (entry & Hval & Hentry & Hget & Hfetch).
    rewrite Hval. cbn beta iota.
    destruct (IH (enriched ++ [entry]) (h ++ snd (run w (enrich_one key id a enriched) h)))
      as (entries & Hval' & Hall & Hget' & Hfetch').
    exists (entry :: entries). rewrite Hval', <- app_assoc. cbn [app].
    rewrite provider_calls_app, ocr_requests_app, map_app, Hget, Hget'.
    assert (List.filter is_pdf (a :: rest)
            = (if is_pdf a then [a] else []) ++ List.filter is_pdf rest) as Hlen.
    { cbn. destruct (is_pdf a); reflexivity. }
    rewrite Hlen, !map_app.
    repeat split; auto.
    + constructor; eauto.
    + destruct (is_pdf a); reflexivity.
    + apply sublist_app; [| exact Hfetch'].
      destruct (is_pdf a); exact Hfetch.
Qed.

Lemma filter_is_pdf_cons (all : list Attachment) (a : Attachment) :
  a ∈ all -> mimeType a = "application/pdf" ->
  exists b rest, List.filter is_pdf all = b :: rest.
Proof.
  intros Hin Hpdf. apply list_elem_of_In in Hin.
  assert (In a (List.filter is_pdf all)) as H.
  { apply List.filter_In. split; [exact Hin | apply is_pdf_true; exact Hpdf]. }
  destruct (List.filter is_pdf all) as [| b rest]; [destruct H | eauto].
Qed.

Lemma processPDFAttachments_run (key : string) (w : World) (message : ParsedMessage)
    (all : list Attachment) :
  attachments message = Some all ->
  (exists a, a ∈ all /\ mimeType a = "application/pdf") ->
  exists enriched,
    value w (processPDFAttachments key message)
      = inr {| message_of := message; enrichedAttachments := Some enriched |}
    /\ Forall2 (fun a entry => exists h, entry_for key w (message_id message) h a entry)
         all enriched
    /\ provider_calls (calls w (processPDFAttachments key message))
       = map (fun a => (message_id message, attachmentId a)) (List.filter is_pdf all)
    /\ (map form_filename (ocr_requests (calls w (processPDFAttachments key message)))
        `sublist_of` map filename (List.filter is_pdf all)).
Proof.
  intros Hall (a & Hin & Hpdf).
  destruct (filter_is_pdf_cons all a Hin Hpdf) as (b & rest & Hfilter).
  unfold value, calls, processPDFAttachments. rewrite Hall.
  destruct all as [| a0 all']; [inversion Hin |].
  cbn beta iota zeta. remember (a0 :: all') as todo eqn:Htodo. clear Htodo.
  replace (List.length (List.filter is_pdf todo) =? 0)%nat with false
    by (rewrite Hfilter; reflexivity).
  unfold Async.exec, Async.call, Async.bind_ok, Async.pure.
  cbn [Async.bind run]. rewrite run_bind.
  match goal with
  | |- context [run w (enrich_loop key ?id todo []) ?h] =>
      destruct (enrich_loop_run key w id todo [] h) as (entries & Hval & Hentries & Hget & Hfetch);
      destruct (run w (enrich_loop key id todo []) h) as [r made]
  end.
  cbn [fst snd] in *. subst r. cbn [app run fst snd].
  exists entries. rewrite app_nil_r.
  unfold provider_calls, ocr_requests in *.
  cbn [omap list_omap getAttachment_of fetch_of projT2 any].
  repeat split; auto.
Qed.

Lemma has_pdf_or_not (message : ParsedMessage) : has_pdf message \/ no_pdf message.
Proof.
  unfold has_pdf, no_pdf. destruct (attachments message) as [all |]; [| auto].
  induction all as [| a l IH].
  - right. constructor.
  - destruct (string_dec (mimeType a) "application/pdf") as [E | NE].
    + left. exists (a :: l), a. repeat split; auto. left.
    + destruct IH as [(all & b & Hall & Hin & Hb) | Hno].
      * left. inversion Hall; subst all. exists (a :: l), b. repeat split; auto.
        right. exact Hin.
      * right. constructor; assumption.
Qed.

Lemma no_pdf_attachments (message : ParsedMessage) :
  no_pdf message -> pdfAttachments message = [].
Proof.
  unfold no_pdf, pdfAttachments. destruct (attachments message); [| reflexivity].
  apply filter_is_pdf_nil.
Qed.

Lemma processPDFAttachments_made (key : string) (w : World) (message : ParsedMessage) :
  provider_calls (calls w (processPDFAttachments key message))
  = map (fun a => (message_id message, attachmentId a)) (pdfAttachments message)
  /\ (map form_filename (ocr_requests (calls w (processPDFAttachments key message)))
      `sublist_of` map filename (pdfAttachments message)).
Proof.
  destruct (has_pdf_or_not message) as [(all & a & Hall & Hin & Hpdf) | Hno].
  - destruct (processPDFAttachments_run key w message all Hall) as (? & _ & _ & Hget & Hfetch);
      [eauto |].
    unfold pdfAttachments. rewrite Hall. auto.
  - destruct (processPDFAttachments_quiet key w message Hno) as (_ & Hget & Hfetch).
    rewrite (no_pdf_attachments _ Hno), Hget, Hfetch. split; [reflexivity | constructor].
Qed.


(** ** A failed OCR call *)

Lemma failed_ocr_run (key : string) (w : World) (id : string) (a : Attachment)
    (h : list AnyEvent) (d : AttachmentData) (answer : result Response) :
  w h _ (GetAttachment id (attachmentId a)) = inr d ->
  w (h ++ retrieval_calls id a d) _
    (Fetch MISTRAL_OCR_ENDPOINT (ocr_request key a d)) = answer ->
  ocr_call_failed answer ->
  run w (processPDFWithMistralOCR key id a) h
  = (inl (ocr_call_error answer), failed_ocr_calls key id a d (ocr_call_error answer)).
Proof.
  intros Hget Hfetch Hfail.
  unfold processPDFWithMistralOCR, ocr_attempt. unfold_async.
  cbn -[pretty extractBillingData JsObj.get]. rewrite Hget.
  cbn -[pretty extractBillingData JsObj.get].
  rewrite <- app_assoc. unfold failed_ocr_calls, retrieval_calls in *.
  cbn [app] in Hfetch |- *.
  rewrite Hfetch.
  destruct answer as [e | response]; cbn -[pretty] in *.
  - reflexivity.
  - rewrite Hfail. cbn -[pretty]. reflexivity.
Qed.

Example down_run :
  run Sample.down (processPDFWithMistralOCR Sample.key "msg-1" Sample.bill) []
  = (inl (ErrorObj "Error" "Mistral OCR API error: 503 Service Unavailable"),
     failed_ocr_calls Sample.key "msg-1" Sample.bill {| data := "JVBERi0xLjQK"; size := 9 |}
       (ErrorObj "Error" "Mistral OCR API error: 503 Service Unavailable")).
Proof. vm_compute. reflexivity. Qed.

(** ** Strings *)

Lemma startsWith_spec (p s : string) :
  Js.startsWith p s = true <-> exists post, s = p +:+ post.
Proof.
  revert s. induction p as [| a p IH]; intros s; cbn.
  - split; eauto.
  - destruct s as [| b s].
    + split; [discriminate | intros [post H]; discriminate].
    + rewrite andb_true_iff, IH. split.
      * intros [Hab [post ->]]. apply Ascii.eqb_eq in Hab. subst b. eauto.
      * intros [post H]. injection H as -> ->. split; [apply Ascii.eqb_refl | eauto].
Qed.

Lemma includes_spec (s p : string) :
  Js.includes s p = true <-> exists pre post, s = pre +:+ p +:+ post.
Proof.
  induction s as [| c s IH]; cbn [Js.includes]; rewrite orb_true_iff, startsWith_spec.
  - split.
    + intros [[post H] | H]; [| discriminate]. exists "", post. exact H.
    + intros (pre & post & H). left. destruct pre; [| discriminate]. eauto.
  - rewrite IH. split.
    + intros [[post H] | (pre & post & H)].
      * exists "", post. exact H.
      * exists (String c pre), post. cbn. rewrite H. reflexivity.
    + intros (pre & post & H). destruct pre as [| c' pre].
      * left. eauto.
      * right. injection H as -> ->. eauto.
Qed.

Lemma string_app_assoc (a b c : string) : (a +:+ b) +:+ c = a +:+ b +:+ c.
Proof.
  induction a as [| x a IH]; [reflexivity |].
  change (String x ((a +:+ b) +:+ c) = String x (a +:+ b +:+ c)). rewrite IH. reflexivity.
Qed.

Lemma toLowerCase_app (a b : string) :
  Js.toLowerCase (a +:+ b) = Js.toLowerCase a +:+ Js.toLowerCase b.
Proof. induction a as [| c a IH]; simpl; [| rewrite IH]; reflexivity. Qed.

Lemma toLowerCase_split (s a b : string) :
  Js.toLowerCase s = a +:+ b ->
  exists a' b', s = a' +:+ b' /\ Js.toLowerCase a' = a /\ Js.toLowerCase b' = b.
Proof.
  revert s. induction a as [| c a IH]; intros s H.
  - exists "", s. auto.
  - destruct s as [| c' s]; [discriminate |]. cbn in H. injection H as Hc H.
    destruct (IH s H) as (a' & b' & -> & Ha & Hb).
    exists (String c' a'), b'. cbn. rewrite Hc, Ha. auto.
Qed.

Lemma includes_lower_spec (s keyword : string) :
  Js.includes (Js.toLowerCase s) keyword = true <-> occurs_ci keyword s.
Proof.
  rewrite includes_spec. unfold occurs_ci. split.
  - intros (pre & post & H).
    apply toLowerCase_split in H as (pre' & rest & -> & _ & H).
    apply toLowerCase_split in H as (mid & post' & -> & Hmid & _).
    eauto.
  - intros (pre & mid & post & -> & Hmid).
    rewrite !toLowerCase_app, Hmid. eauto.
Qed.

(** ** [isLikelyBillingMessage] *)

Lemma existsb_is_pdf (all : list Attachment) :
  existsb is_pdf all = true <-> exists a, a ∈ all /\ mimeType a = "application/pdf".
Proof.
  rewrite existsb_exists. split; intros (a & Hin & H); exists a.
  - split; [apply list_elem_of_In; exact Hin | apply String.eqb_eq; exact H].
  - split; [apply list_elem_of_In; exact Hin | apply String.eqb_eq; exact H].
Qed.

Lemma hasPDFAttachments_spec (message : ParsedMessage) :
  match attachments message with
  | Some all => existsb is_pdf all
  | None => false
  end = true <-> has_pdf message.
Proof.
  unfold has_pdf. destruct (attachments message) as [all |].
  - rewrite existsb_is_pdf. split.
    + intros (a & Hin & H). eauto.
    + intros (all' & a & Hall & Hin & H). injection Hall as <-. eauto.
  - split; [discriminate | intros (all & a & Hall & _); discriminate].
Qed.

Lemma no_pdf_not_has_pdf (message : ParsedMessage) : no_pdf message -> ~ has_pdf message.
Proof.
  unfold no_pdf, has_pdf. intros Hno (all & a & Hall & Hin & Hpdf).
  rewrite Hall in Hno. rewrite Forall_forall in Hno. exact (Hno a Hin Hpdf).
Qed.

(** *** Reading a keyword in any case *)

Lemma code_ascii_of_N (n : N) : (n < 256)%N -> Js.code (ascii_of_N n) = n.
Proof. intros H. unfold Js.code. apply N_ascii_embedding. exact H. Qed.

Lemma code_inj (a b : ascii) : Js.code a = Js.code b -> a = b.
Proof.
  unfold Js.code. intros H.
  rewrite <- (ascii_N_embedding a), <- (ascii_N_embedding b), H. reflexivity.
Qed.

Lemma lower_char_any_case (k c : ascii) :
  plain k -> (Js.lower_char c = k <-> in_any_case k c).
Proof.
  intros [Hk Hup]. unfold in_any_case. fold (Js.code k) (Js.code c).
  unfold Js.is_upper, Js.in_range in Hup.
  apply andb_false_iff in Hup. rewrite !N.leb_gt in Hup.
  unfold Js.lower_char, Js.is_upper, Js.in_range.
  destruct ((65 <=? Js.code c)%N && (Js.code c <=? 90)%N
            || (192 <=? Js.code c)%N && (Js.code c <=? 222)%N
               && negb (Js.code c =? 215)%N) eqn:Hc.
  - rewrite !orb_true_iff, !andb_true_iff, !N.leb_le in Hc. split.
    + intros <-. rewrite code_ascii_of_N in * by lia. right. lia.
    + intros [-> | [Hrange Hsum]]; [lia |].
      apply code_inj. rewrite code_ascii_of_N by lia. exact Hsum.
  - rewrite !orb_false_iff, !andb_false_iff, !N.leb_gt in Hc. split.
    + intros ->. left. reflexivity.
    + intros [-> | [Hrange Hsum]]; [reflexivity | lia].
Qed.

Lemma toLowerCase_any_case (keyword : string) :
  Forall plain (list_ascii_of_string keyword) ->
  forall word, Js.toLowerCase word = keyword <-> written_in_any_case keyword word.
Proof.
  unfold written_in_any_case.
  induction keyword as [| k keyword IH]; intros Hplain word.
  - destruct word as [| c word]; cbn; split; intros H;
      try reflexivity; try constructor; try discriminate; inversion H.
  - cbn in Hplain. apply Forall_cons in Hplain as [Hk Hplain].
    destruct word as [| c word]; cbn.
    + split; intros H; [discriminate | inversion H].
    + split.
      * intros [= Hc Hword]. constructor.
        -- apply (lower_char_any_case k c Hk). exact Hc.
        -- apply (IH Hplain). exact Hword.
      * intros H. apply Forall2_cons in H as [Hc Hword]. f_equal.
        -- apply (lower_char_any_case k c Hk). exact Hc.
        -- apply (IH Hplain). exact Hword.
Qed.

Lemma billingKeywords_plain (keyword : string) :
  keyword ∈ billingKeywords -> Forall plain (list_ascii_of_string keyword).
Proof.
  unfold billingKeywords. intros H.
  repeat (apply elem_of_cons in H as [-> | H];
          [cbn; repeat constructor; discriminate |]).
  inversion H.
Qed.

(** [includes] on a lower-cased text finds a keyword of the list exactly
    when the keyword occurs in the text in some case of its letters. *)
Lemma includes_any_case (s keyword : string) :
  keyword ∈ billingKeywords ->
  Js.includes (Js.toLowerCase s) keyword = true <-> occurs_in_any_case keyword s.
Proof.
  intros Hin. rewrite includes_lower_spec. unfold occurs_ci, occurs_in_any_case.
  pose proof (toLowerCase_any_case keyword (billingKeywords_plain keyword Hin)) as Hword.
  split; intros (pre & word & post & Hs & H); exists pre, word, post;
    (split; [exact Hs | apply Hword; exact H]).
Qed.

(** C10. [isLikelyBillingMessage] answers true exactly when a keyword of
    its list occurs case-insensitively in the subject or in the from
    header (some part of it reads the keyword, each letter a-z of the
    keyword written small or capital) and an attachment has the MIME type
    application/pdf; so it answers false for every message without a PDF
    attachment. *)
Theorem isLikelyBillingMessage_spec (message : ParsedMessage) :
  (isLikelyBillingMessage message = true <->
     (exists keyword, keyword ∈ billingKeywords /\
        (occurs_in_any_case keyword (subject message)
         \/ occurs_in_any_case keyword (headers_from message)))
     /\ has_pdf message)
  /\ (no_pdf message -> isLikelyBillingMessage message = false).
Proof.
  assert (isLikelyBillingMessage message = true <->
     (exists keyword, keyword ∈ billingKeywords /\
        (occurs_in_any_case keyword (subject message)
         \/ occurs_in_any_case keyword (headers_from message)))
     /\ has_pdf message) as Hiff.
  { unfold isLikelyBillingMessage.
    rewrite andb_true_iff, hasPDFAttachments_spec, existsb_exists.
    apply and_iff_compat_r. split.
    - intros (keyword & Hin & H). exists keyword.
      apply list_elem_of_In in Hin.
      rewrite orb_true_iff, !(includes_any_case _ keyword Hin) in H.
      split; [exact Hin | exact H].
    - intros (keyword & Hin & H). exists keyword.
      rewrite orb_true_iff, !(includes_any_case _ keyword Hin).
      split; [apply list_elem_of_In; exact Hin | exact H]. }
  split; [exact Hiff |].
  intros Hno. apply not_true_is_false. rewrite Hiff.
  intros [_ Hpdf]. exact (no_pdf_not_has_pdf _ Hno Hpdf).
Qed.

Example likely_billing :
  isLikelyBillingMessage (Sample.message (Some [Sample.notes; Sample.bill])) = true.
Proof. reflexivity. Qed.

Example likely_billing_in_capitals :
  isLikelyBillingMessage
    {| message_id := "msg-2"; subject := "INVOICE attached";
       headers_from := "Billing <noreply@acme.example>";
       attachments := Some [Sample.bill]; message_rest := [] |} = true.
Proof. reflexivity. Qed.

Example not_likely_without_pdf :
  isLikelyBillingMessage (Sample.message (Some [Sample.notes])) = false.
Proof. reflexivity. Qed.

(** ** Document type *)

Lemma classify_first_match (text : string) :
  classify text = first_match classification_rules text.
Proof.
  unfold classify, first_match, rule_matches, classification_rules. cbn [fst snd existsb].
  rewrite !orb_false_r. reflexivity.
Qed.

Lemma first_match_least (rules : list (list string * string)) (text : string)
    (i : nat) (rule : list string * string) :
  rules !! i = Some rule ->
  rule_matches text rule = true ->
  (forall k earlier, k < i -> rules !! k = Some earlier -> rule_matches text earlier = false) ->
  first_match rules text = Some (snd rule).
Proof.
  revert i. induction rules as [| r rest IH]; intros i Hi Hm Hbefore; [discriminate |].
  destruct i as [| i]; cbn in *.
  - injection Hi as ->. rewrite Hm. reflexivity.
  - rewrite (Hbefore 0 r); [| lia | reflexivity].
    apply (IH i Hi Hm). intros k earlier Hk Hl. apply (Hbefore (S k) earlier); [lia | exact Hl].
Qed.

Lemma first_match_none (rules : list (list string * string)) (text : string) :
  Forall (fun rule => rule_matches text rule = false) rules ->
  first_match rules text = None.
Proof.
  induction 1 as [| r rest Hr _ IH]; cbn; [reflexivity |]. rewrite Hr. exact IH.
Qed.

Lemma first_match_some (rules : list (list string * string)) (text type : string) :
  first_match rules text = Some type ->
  exists i rule, rules !! i = Some rule /\ rule_matches text rule = true /\ snd rule = type
    /\ forall k earlier, k < i -> rules !! k = Some earlier -> rule_matches text earlier = false.
Proof.
  induction rules as [| r rest IH]; cbn; [discriminate |].
  destruct (rule_matches text r) eqn:Hr.
  - intros [= <-]. exists 0, r. repeat split; auto. intros k earlier Hk. lia.
  - intros H. destruct (IH H) as (i & rule & Hi & Hm & Hty & Hbefore).
    exists (S i), rule. repeat split; auto.
    intros [| k] earlier Hk Hl; cbn in Hl.
    + injection Hl as <-. exact Hr.
    + apply (Hbefore k earlier); [lia | exact Hl].
Qed.

(** C4 (as stated, refuted).  A legal invoice that mentions a phone matches
    the rules of legal_invoice and of invoice, and also the rule declared
    before both: its type is phone_bill, not the type of the earlier of the
    two rules. *)
Lemma earlier_of_two_wins_fails :
  ~ earlier_of_two_wins "Legal invoice for a phone consultation".
Proof.
  intros H.
  specialize (H 1 2 (["legal"; "attorney"], "legal_invoice") (["invoice"], "invoice")).
  assert (classify "Legal invoice for a phone consultation" = Some "phone_bill") as E
    by (vm_compute; reflexivity).
  rewrite E in H. cbn [snd] in H.
  assert (Some "phone_bill" = Some "legal_invoice") as Habs.
  { apply H; [lia | reflexivity | reflexivity | vm_compute; reflexivity
             | vm_compute; reflexivity]. }
  discriminate Habs.
Qed.

(** C4 (amended).  The document type is the type of the first rule, in
    declaration order, whose keyword set the text matches: a matching rule
    that no earlier rule precedes gives the type, of two matching rules the
    later one never does, and a text that matches no rule has no type. *)
Theorem classify_first_match_wins (text : string) :
  classify text = first_match classification_rules text
  /\ (forall i rule,
        classification_rules !! i = Some rule ->
        rule_matches text rule = true ->
        (forall k earlier, k < i -> classification_rules !! k = Some earlier ->
                           rule_matches text earlier = false) ->
        classify text = Some (snd rule))
  /\ (forall i j rule_i rule_j,
        i < j ->
        classification_rules !! i = Some rule_i ->
        classification_rules !! j = Some rule_j ->
        rule_matches text rule_i = true ->
        rule_matches text rule_j = true ->
        classify text ≠ Some (snd rule_j))
  /\ (Forall (fun rule => rule_matches text rule = false) classification_rules ->
      classify text = None).
Proof.
  split; [apply classify_first_match |].
  split; [intros i rule Hi Hm Hb; rewrite classify_first_match;
          exact (first_match_least _ _ _ _ Hi Hm Hb) |].
  split; [| intros H; rewrite classify_first_match; exact (first_match_none _ _ H)].
  intros i j rule_i rule_j Hij Hi Hj Hmi Hmj Hc.
  rewrite classify_first_match in Hc.
  apply first_match_some in Hc as (m & rule & Hm & _ & Hty & Hbefore).
  assert (m <= i) as Hmi'.
  { destruct (le_lt_dec m i) as [L | L]; [exact L |].
    rewrite (Hbefore i rule_i L Hi) in Hmi. discriminate. }
  assert (m < j) as Hmj' by lia.
  do 3 (destruct j as [| j]; [destruct m as [| [| [| m]]]; try lia;
                              cbn in Hm, Hj; simplify_eq; cbn in Hty; discriminate |]).
  cbn in Hj. discriminate.
Qed.

(** ** [extractBillingData] *)

Lemma get_total (r : JsVal) (k1 k2 : string) (v : JsVal) :
  JsObj.get r k1 = inr v -> exists v', JsObj.get r k2 = inr v'.
Proof. destruct r; cbn; intros H; try discriminate; eauto. Qed.

(** C5.  The extraction reads the text of the OCR result and nothing else:
    two OCR results with the same [text] give the same outcome, whatever
    their other properties are. *)
Theorem extractBillingData_pure (r1 r2 : JsVal) :
  JsObj.get r1 "text" = JsObj.get r2 "text" ->
  extractBillingData r1 = extractBillingData r2.
Proof.
  intros H. unfold extractBillingData. rewrite <- H.
  destruct (JsObj.get r1 "text") as [e | t] eqn:E1; [reflexivity |].
  symmetry in H.
  destruct (get_total r1 "text" "json" t E1) as [j1 ->].
  destruct (get_total r2 "text" "json" t H) as [j2 ->].
  reflexivity.
Qed.

Lemma extractBillingData_pure_witness :
  extractBillingData (VObj [("text", VStr Sample.text); ("json", VObj [("pages", VNum (Num 2))])])
  = extractBillingData (VObj [("model", VStr "mistral-ocr-2505"); ("text", VStr Sample.text)]).
Proof. apply extractBillingData_pure. reflexivity. Defined.

Lemma extractBillingData_text (fields : list (string * JsVal)) (text : string) :
  JsObj.own fields "text" = Some (VStr text) ->
  extractBillingData (VObj fields) = inr (extractFromText text).
Proof.
  intros H. unfold extractBillingData. cbn. rewrite H. cbn.
  unfold JsObj.or. cbn. destruct (String.eqb text "") eqn:E; cbn; [| reflexivity].
  apply String.eqb_eq in E. subst text. reflexivity.
Qed.

Lemma no_pattern_empty (text : string) :
  no_pattern_matches text -> extractFromText text = empty_extraction.
Proof.
  intros (Hamount & Hdue & Hinvoice & Hvendor & Hkeywords).
  unfold extractFromText, empty_extraction.
  rewrite Hdue, Hinvoice, Hvendor.
  unfold Patterns.amountPatterns in *.
  inversion Hamount as [| ? ? H1 Ha1]; subst. inversion Ha1 as [| ? ? H2 Ha2]; subst.
  inversion Ha2 as [| ? ? H3 _]; subst.
  cbn [firstAmount]. rewrite H1, H2, H3.
  unfold typeKeywords in Hkeywords.
  repeat match goal with
         | H : Forall _ (_ :: _) |- _ => inversion H; subst; clear H
         end.
  unfold classify.
  repeat match goal with H : Js.includes _ _ = false |- _ => rewrite H; clear H end.
  reflexivity.
Qed.

Lemma no_pattern_matches_empty : no_pattern_matches "".
Proof.
  unfold no_pattern_matches, Patterns.amountPatterns, typeKeywords.
  repeat split; repeat constructor.
Qed.

(** ** What a match of a pattern says about the text *)

Module RegexFacts.
Import Regex.

Lemma orelse_some {A} (x : option A) (y : unit -> option A) (a : A) :
  orelse x y = Some a -> x = Some a \/ y tt = Some a.
Proof. destruct x; cbn; auto. Qed.

(** A repetition that succeeds hands a suffix of its input to the
    continuation. *)
Lemma rep_suffix (greedy : bool) (p : ascii -> bool) (k : cont) (s : string) :
  forall lo hi prev cap res,
    rep greedy p k lo hi prev s cap = Some res ->
    exists pre s' prev', s = pre +:+ s' /\ k prev' s' cap = Some res.
Proof.
  induction s as [| c s IH]; intros lo hi prev cap res H.
  - exists "", "", prev. split; [reflexivity |].
    cbn [rep] in H. destruct greedy; apply orelse_some in H as [H | H];
      try discriminate; destruct lo; (exact H || discriminate).
  - assert (k prev (String c s) cap = Some res
            \/ rep greedy p k (Nat.pred lo) (hi_pred hi) (Some c) s cap = Some res) as [Hk | Hr].
    { cbn [rep] in H. destruct greedy.
      - apply orelse_some in H as [H | H].
        + right. destruct (hi_open hi && p c); [exact H | discriminate].
        + left. destruct lo; [exact H | discriminate].
      - apply orelse_some in H as [H | H].
        + left. destruct lo; [exact H | discriminate].
        + right. destruct (hi_open hi && p c); [exact H | discriminate]. }
    + exists "", (String c s), prev. auto.
    + destruct (IH _ _ _ _ _ Hr) as (pre & s' & prev' & -> & Hk).
      exists (String c pre), s', prev'. auto.
Qed.

(** A pattern that succeeds hands a suffix of its input to the
    continuation. *)
Lemma run_suffix (r : regex) :
  forall prev s cap k res,
    run r prev s cap k = Some res ->
    exists pre s' prev' cap', s = pre +:+ s' /\ k prev' s' cap' = Some res.
Proof.
  induction r as [| p | r1 IH1 r2 IH2 | r1 IH1 r2 IH2 | greedy p lo hi | r1 IH1 |];
    intros prev s cap k res H; cbn [run] in H.
  - exists "", s, prev, cap. auto.
  - destruct s as [| c s]; [discriminate |]. destruct (p c); [| discriminate].
    exists (String c ""), s, (Some c), cap. auto.
  - apply IH1 in H as (pre1 & s1 & prev1 & cap1 & -> & H).
    apply IH2 in H as (pre2 & s2 & prev2 & cap2 & -> & H).
    exists (pre1 +:+ pre2), s2, prev2, cap2. split; [| exact H].
    rewrite string_app_assoc. reflexivity.
  - apply orelse_some in H as [H | H]; [apply IH1 in H | apply IH2 in H]; exact H.
  - apply rep_suffix in H as (pre & s' & prev' & -> & H). eauto 6.
  - apply IH1 in H as (pre & s' & prev' & cap' & -> & H). eauto 6.
  - exists "", s, prev, cap. split; [reflexivity |].
    destruct prev as [c |]; [destruct (Js.is_line_terminator c); [exact H | discriminate]
                            | exact H].
Qed.

Lemma is_char_i_lower (a c : ascii) :
  Js.is_lower a = true -> is_char_i a c = true -> Js.lower_char c = a.
Proof.
  unfold is_char_i, Js.lower_char. intros Ha H. apply Ascii.eqb_eq in H.
  destruct (Js.is_upper c) eqn:Hu; cbn; [congruence |].
  subst a. unfold Js.is_lower, Js.in_range in *.
  apply andb_true_iff in Ha as [H1 H2]. apply N.leb_le in H1, H2.
  replace ((192 <=? Js.code c)%N) with false by (symmetry; apply N.leb_gt; lia).
  reflexivity.
Qed.

(** A literal under the [i] flag matches a prefix whose lower case is the
    literal. *)
Lemma lit_i_prefix (w : string) :
  lower_word w ->
  forall prev s cap k res,
    run (lit_i w) prev s cap k = Some res ->
    exists m rest prev', s = m +:+ rest /\ Js.toLowerCase m = w /\ k prev' rest cap = Some res.
Proof.
  unfold lower_word. induction w as [| a w IH]; intros Hw prev s cap k res H; cbn in H.
  - exists "", s, prev. auto.
  - cbn in Hw. inversion Hw as [| ? ? Ha Hw']; subst.
    destruct s as [| c s]; [discriminate |].
    destruct (is_char_i a c) eqn:Hc; [| discriminate].
    apply (IH Hw') in H as (m & rest & prev' & -> & Hm & H).
    exists (String c m), rest, prev'. cbn. rewrite Hm, (is_char_i_lower a c Ha Hc). auto.
Qed.

Lemma lit_prefix (w : string) :
  forall prev s cap k res,
    run (lit w) prev s cap k = Some res ->
    exists rest prev', s = w +:+ rest /\ k prev' rest cap = Some res.
Proof.
  induction w as [| a w IH]; intros prev s cap k res H; cbn in H.
  - exists s, prev. auto.
  - destruct s as [| c s]; [discriminate |].
    destruct (is_char a c) eqn:Hc; [| discriminate]. apply Ascii.eqb_eq in Hc. subst c.
    apply IH in H as (rest & prev' & -> & H). exists rest, prev'. auto.
Qed.

(** A search that succeeds found its match at some position of the text. *)
Lemma search_position (r : regex) (s : string) :
  forall prev res,
    search r prev s = Some res ->
    exists pre s' prev', s = pre +:+ s' /\ match_at r prev' s' = Some res.
Proof.
  induction s as [| c s IH]; intros prev res H; cbn [search] in H;
    apply orelse_some in H as [H | H].
  - exists "", "", prev. auto.
  - discriminate.
  - exists "", (String c s), prev. auto.
  - apply IH in H as (pre & s' & prev' & -> & H). exists (String c pre), s', prev'. auto.
Qed.

Lemma occurs_ci_inside (w pre m rest more : string) :
  Js.toLowerCase m = w -> occurs_ci w (pre +:+ more +:+ m +:+ rest).
Proof.
  intros H. exists (pre +:+ more), m, rest. split; [| exact H].
  rewrite !string_app_assoc. reflexivity.
Qed.

(** A pattern that starts with a literal under the [i] flag matches only a
    text in which the literal occurs. *)
Lemma exec_lit_i (w : string) (r : regex) (text : string) (res : option string) :
  lower_word w ->
  exec (Seq (lit_i w) r) text = Some res -> occurs_ci w text.
Proof.
  intros Hw H. apply search_position in H as (pre & s' & prev' & -> & H).
  unfold match_at in H. cbn [run] in H.
  apply (lit_i_prefix w Hw) in H as (m & rest & _ & -> & Hm & _).
  apply (occurs_ci_inside w pre m rest "" Hm).
Qed.

(** Once the group is set it stays set. *)
Lemma run_keeps_group (r : regex) :
  forall prev s c k res,
    run r prev s (Some c) k = Some res ->
    exists prev' s' c', k prev' s' (Some c') = Some res.
Proof.
  induction r as [| p | r1 IH1 r2 IH2 | r1 IH1 r2 IH2 | greedy p lo hi | r1 IH1 |];
    intros prev s c k res H; cbn [run] in H.
  - eauto.
  - destruct s as [| a s]; [discriminate |]. destruct (p a); [eauto | discriminate].
  - apply IH1 in H as (prev1 & s1 & c1 & H). apply IH2 in H. exact H.
  - apply orelse_some in H as [H | H]; [apply IH1 in H | apply IH2 in H]; exact H.
  - apply rep_suffix in H as (pre & s' & prev' & _ & H). eauto.
  - apply run_suffix in H as (pre & s' & prev' & cap' & _ & H). eauto.
  - destruct prev as [a |]; [destruct (Js.is_line_terminator a); [eauto | discriminate]
                            | eauto].
Qed.

Lemma run_sets_group (r : regex) :
  sets_group r = true ->
  forall prev s cap k res,
    run r prev s cap k = Some res ->
    exists prev' s' c', k prev' s' (Some c') = Some res.
Proof.
  induction r as [| p | r1 IH1 r2 IH2 | r1 IH1 r2 IH2 | greedy p lo hi | r1 IH1 |];
    cbn [sets_group]; intros Hg prev s cap k res H; try discriminate; cbn [run] in H.
  - destruct (sets_group r1) eqn:H1.
    + apply (IH1 eq_refl) in H as (prev1 & s1 & c1 & H).
      apply run_keeps_group in H. exact H.
    + apply run_suffix in H as (pre & s1 & prev1 & cap1 & _ & H).
      apply (IH2 Hg) in H. exact H.
  - apply andb_true_iff in Hg as [H1 H2].
    apply orelse_some in H as [H | H]; [apply (IH1 H1) in H | apply (IH2 H2) in H]; exact H.
  - apply run_suffix in H as (pre & s' & prev' & cap' & _ & H). eauto.
Qed.

(** A pattern with its group on every path gives a defined [match[1]]. *)
Lemma exec_group_defined (r : regex) (text : string) (m : option string) :
  sets_group r = true -> exec r text = Some m -> exists c, m = Some c.
Proof.
  intros Hg H. apply search_position in H as (pre & s' & prev' & _ & H).
  apply (run_sets_group r Hg) in H as (prev & s & c & H).
  unfold accept in H. injection H as <-. eauto.
Qed.

Lemma patterns_set_group :
  Forall (fun pattern => sets_group pattern = true)
    (Patterns.amountPatterns
       ++ [Patterns.dueDatePattern; Patterns.invoicePattern; Patterns.vendorPattern]).
Proof. repeat constructor. Qed.

Lemma exec_lit (w : string) (r : regex) (text : string) (res : option string) :
  exec (Seq (lit w) r) text = Some res -> Js.includes text w = true.
Proof.
  intros H. apply search_position in H as (pre & s' & prev' & -> & H).
  unfold match_at in H. cbn [run] in H.
  apply lit_prefix in H as (rest & _ & -> & _).
  apply includes_spec. eauto.
Qed.

Lemma exec_vendorPattern (text : string) (res : option string) :
  exec Patterns.vendorPattern text = Some res ->
  occurs_ci "invoice" text \/ occurs_ci "bill" text.
Proof.
  intros H. apply search_position in H as (pre & s' & prev' & -> & H).
  unfold match_at, Patterns.vendorPattern in H. cbn [seq run] in H.
  assert (run (Group (lazy_star Patterns.not_newline)) prev' s' None
            (fun prev s cap =>
               run (Alt (lit_i "invoice") (lit_i "bill")) prev s cap accept) = Some res) as H'.
  { destruct prev' as [c |]; [destruct (Js.is_line_terminator c); [exact H | discriminate]
                             | exact H]. }
  clear H. apply run_suffix in H' as (more & s'' & prev'' & cap'' & -> & H).
  cbn [run] in H. apply orelse_some in H as [H | H].
  - left. apply lit_i_prefix in H as (m & rest & _ & -> & Hm & _);
      [| unfold lower_word; cbn; repeat constructor].
    apply (occurs_ci_inside "invoice" pre m rest more Hm).
  - right. apply lit_i_prefix in H as (m & rest & _ & -> & Hm & _);
      [| unfold lower_word; cbn; repeat constructor].
    apply (occurs_ci_inside "bill" pre m rest more Hm).
Qed.

End RegexFacts.

Lemma not_some_none {A} (o : option A) : (forall a, o = Some a -> False) -> o = None.
Proof. destruct o as [a |]; [intros H; destruct (H a eq_refl) | reflexivity]. Qed.

Lemma not_occurs_includes (text keyword : string) :
  ~ occurs_ci keyword text -> Js.includes (Js.toLowerCase text) keyword = false.
Proof.
  intros H. apply not_true_is_false. rewrite includes_lower_spec. exact H.
Qed.

(** A text without a dollar sign and without trigger words matches no
    billing pattern. *)
Lemma trigger_free_no_pattern (text : string) :
  trigger_free text -> no_pattern_matches text.
Proof.
  unfold trigger_free, triggerWords. intros [Hdollar Hwords].
  repeat match goal with
         | H : Forall _ (_ :: _) |- _ => inversion H; subst; clear H
         end.
  unfold no_pattern_matches, Patterns.amountPatterns, typeKeywords.
  split; [| split; [| split; [| split]]].
  - repeat constructor.
    + apply not_some_none. intros res H. unfold Patterns.total_pattern in H.
      apply RegexFacts.exec_lit_i in H; [auto | unfold lower_word; cbn; repeat constructor].
    + apply not_some_none. intros res H. unfold Patterns.amount_pattern in H.
      apply RegexFacts.exec_lit_i in H; [auto | unfold lower_word; cbn; repeat constructor].
    + apply not_some_none. intros res H. unfold Patterns.dollar_pattern in H.
      apply RegexFacts.exec_lit in H. congruence.
  - apply not_some_none. intros res H. unfold Patterns.dueDatePattern in H.
    apply RegexFacts.exec_lit_i in H; [auto | unfold lower_word; cbn; repeat constructor].
  - apply not_some_none. intros res H. unfold Patterns.invoicePattern in H.
    apply RegexFacts.exec_lit_i in H; [auto | unfold lower_word; cbn; repeat constructor].
  - apply not_some_none. intros res H.
    apply RegexFacts.exec_vendorPattern in H as [H | H]; auto.
  - repeat constructor; apply not_occurs_includes; assumption.
Qed.

Lemma includes_false_not_occurs (text keyword : string) :
  Js.includes (Js.toLowerCase text) keyword = false -> ~ occurs_ci keyword text.
Proof. intros H Ho. apply includes_lower_spec in Ho. congruence. Qed.

Example garbage_is_trigger_free : trigger_free "%PDF-1.4 @@ ??".
Proof.
  split; [reflexivity |].
  unfold triggerWords. repeat constructor; apply includes_false_not_occurs; reflexivity.
Qed.

Example extract_sample :
  extractBillingData (VObj [("text", VStr Sample.text)]) =
  inr {| documentType := Some "legal_invoice";
         totalAmount := Some (Num (450 # 1));
         dueDate := Some "12/01/2025";
         vendor := Some "Acme Legal Services";
         invoiceNumber := Some "#A123" |}.
Proof. vm_compute. reflexivity. Qed.

(** ** The shape of the extraction result *)

(** C2 (as stated, refuted).  On the empty text no pattern matches and the
    five fields are absent, but the result has no [confidence] property:
    reading it gives [undefined], not 0. *)
Lemma confidence_zero_fails :
  exists d,
    extractBillingData (VObj [("text", VStr "")]) = inr d
    /\ no_pattern_matches ""
    /\ d = empty_extraction
    /\ ~ carries_confidence_zero d.
Proof.
  exists empty_extraction. split; [reflexivity |].
  split; [exact no_pattern_matches_empty |].
  split; [reflexivity |].
  unfold carries_confidence_zero. cbn. discriminate.
Qed.

(** C2 (amended).  On every OCR result whose [text] is a string, empty or
    not, the extraction returns a result and does not throw; when no
    billing pattern matches, as on every text without a dollar sign and
    without a trigger word, the five optional fields are all absent; the
    result has no [confidence] property. *)
Theorem extraction_degrades (fields : list (string * JsVal)) (text : string) :
  JsObj.own fields "text" = Some (VStr text) ->
  extractBillingData (VObj fields) = inr (extractFromText text)
  /\ (no_pattern_matches text -> extractFromText text = empty_extraction)
  /\ (trigger_free text -> extractFromText text = empty_extraction)
  /\ JsObj.get (extractedData_object (extractFromText text)) "confidence" = inr VUndefined.
Proof.
  intros H. split; [exact (extractBillingData_text fields text H) |].
  split; [exact (no_pattern_empty text) |].
  split; [| reflexivity].
  intros Hfree. exact (no_pattern_empty text (trigger_free_no_pattern text Hfree)).
Qed.

Lemma extraction_degrades_witness :
  extractBillingData (VObj [("ok", VBool true); ("text", VStr "%PDF-1.4 @@ ??")])
    = inr (extractFromText "%PDF-1.4 @@ ??")
  /\ (no_pattern_matches "%PDF-1.4 @@ ??" ->
      extractFromText "%PDF-1.4 @@ ??" = empty_extraction)
  /\ (trigger_free "%PDF-1.4 @@ ??" ->
      extractFromText "%PDF-1.4 @@ ??" = empty_extraction)
  /\ JsObj.get (extractedData_object (extractFromText "%PDF-1.4 @@ ??")) "confidence"
     = inr VUndefined.
Proof.
  apply (extraction_degrades [("ok", VBool true); ("text", VStr "%PDF-1.4 @@ ??")]
           "%PDF-1.4 @@ ??").
  reflexivity.
Defined.

(** Outside strings the function does throw: on a [null] OCR result, and
    on a [text] that is truthy and not a string.  An absent or falsy
    [text] counts as the empty text. *)
Example extract_null :
  extractBillingData VNull
  = inl (TypeError "Cannot read properties of null (reading 'text')").
Proof. reflexivity. Qed.

Example extract_number_text :
  extractBillingData (VObj [("text", VNum (Num 42))])
  = inl (TypeError "text.match is not a function").
Proof. reflexivity. Qed.

Example extract_no_text :
  extractBillingData (VObj [("pages", VArr [])]) = inr empty_extraction.
Proof. reflexivity. Qed.

(** C3 (as stated, refuted).  The result of the extraction on the sample
    bill has the five billing fields and no confidence value. *)
Lemma confidence_missing :
  exists d,
    extractBillingData (VObj [("text", VStr Sample.text)]) = inr d
    /\ ~ carries_confidence d.
Proof.
  eexists. split; [reflexivity |].
  intros (c & Hget & Hc). cbn in Hget. injection Hget as <-. exact (Hc eq_refl).
Qed.

(** C3 (amended).  Every extraction result is an object with exactly the
    properties documentType, totalAmount, dueDate, vendor and
    invoiceNumber, each possibly undefined; it carries no confidence. *)
Theorem extraction_shape (r : JsVal) (d : ExtractedData) :
  extractBillingData r = inr d ->
  own_keys (extractedData_object d)
    = ["documentType"; "totalAmount"; "dueDate"; "vendor"; "invoiceNumber"]
  /\ ("confidence" ∉ own_keys (extractedData_object d))
  /\ ~ carries_confidence d.
Proof.
  intros _. split; [reflexivity |]. split.
  - cbn. rewrite !elem_of_cons, elem_of_nil. intros H.
    repeat destruct H as [H | H]; try discriminate H. exact H.
  - intros (c & Hget & Hc). cbn in Hget. injection Hget as <-. exact (Hc eq_refl).
Qed.

Lemma extraction_shape_witness :
  own_keys (extractedData_object (extractFromText Sample.text))
    = ["documentType"; "totalAmount"; "dueDate"; "vendor"; "invoiceNumber"]
  /\ ("confidence" ∉ own_keys (extractedData_object (extractFromText Sample.text)))
  /\ ~ carries_confidence (extractFromText Sample.text).
Proof.
  apply (extraction_shape (VObj [("text", VStr Sample.text)])). reflexivity.
Defined.

(** ** [processPDFAttachments] and its calls *)

(** C8.  A message whose attachment list is absent, empty or free of PDF
    attachments comes back as it is, with no [enrichedAttachments]; neither
    the provider nor the OCR service is called. *)
Theorem processPDFAttachments_without_pdf
    (key : string) (w : World) (message : ParsedMessage) :
  no_pdf message ->
  value w (processPDFAttachments key message)
    = inr {| message_of := message; enrichedAttachments := None |}
  /\ provider_calls (calls w (processPDFAttachments key message)) = []
  /\ ocr_requests (calls w (processPDFAttachments key message)) = [].
Proof. exact (processPDFAttachments_quiet key w message). Qed.

Lemma processPDFAttachments_without_pdf_witness :
  value Sample.healthy
    (processPDFAttachments Sample.key (Sample.message (Some [Sample.notes])))
    = inr {| message_of := Sample.message (Some [Sample.notes]);
             enrichedAttachments := None |}
  /\ provider_calls
       (calls Sample.healthy
          (processPDFAttachments Sample.key (Sample.message (Some [Sample.notes])))) = []
  /\ ocr_requests
       (calls Sample.healthy
          (processPDFAttachments Sample.key (Sample.message (Some [Sample.notes])))) = [].
Proof.
  apply processPDFAttachments_without_pdf.
  unfold no_pdf. cbn. repeat constructor. discriminate.
Defined.



(** C7.  No retry inside the component.  One OCR run asks the provider for
    its attachment exactly once and sends at most one request to the OCR
    service, whatever the answers.  Over a whole message the calls to the
    provider are, in order, one for each PDF attachment, and the requests
    to the OCR service are at most one for each PDF attachment, in the
    order of the attachments; so neither is made more often than there are
    PDF attachments. *)
Theorem no_internal_retry (key : string) (w : World) (message : ParsedMessage) :
  (forall id a h,
      provider_calls (snd (run w (processPDFWithMistralOCR key id a) h))
      = [(id, attachmentId a)]
      /\ (map form_filename (ocr_requests (snd (run w (processPDFWithMistralOCR key id a) h)))
          `sublist_of` [filename a]))
  /\ provider_calls (calls w (processPDFAttachments key message))
     = map (fun a => (message_id message, attachmentId a)) (pdfAttachments message)
  /\ (map form_filename (ocr_requests (calls w (processPDFAttachments key message)))
      `sublist_of` map filename (pdfAttachments message))
  /\ List.length (provider_calls (calls w (processPDFAttachments key message)))
     = List.length (pdfAttachments message)
  /\ List.length (ocr_requests (calls w (processPDFAttachments key message)))
     <= List.length (pdfAttachments message).
Proof.
  split; [intros id a h; apply ocr_calls |].
  destruct (processPDFAttachments_made key w message) as [Hget Hfetch].
  split; [exact Hget |]. split; [exact Hfetch |]. split.
  - rewrite Hget, length_map. reflexivity.
  - apply sublist_length in Hfetch. rewrite !length_map in Hfetch. exact Hfetch.
Qed.

(** C6 (as stated, refuted).  The OCR service answers 503: the error that
    reaches the caller of [processPDFWithMistralOCR] is a plain [Error]
    with the status line as its message, not an ExtractionUnavailable, and
    the caller of [processPDFAttachments] gets no error at all but a
    message whose attachment carries a failure record. *)
Lemma failure_is_not_ExtractionUnavailable :
  exists e,
    value Sample.down (processPDFWithMistralOCR Sample.key "msg-1" Sample.bill) = inl e
    /\ ocr_call_failed (inr Sample.response_down)
    /\ ~ is_ExtractionUnavailable e
    /\ value Sample.down
         (processPDFAttachments Sample.key (Sample.message (Some [Sample.bill])))
       = inr {| message_of := Sample.message (Some [Sample.bill]);
                enrichedAttachments := Some [failure_entry Sample.bill e] |}.
Proof.
  exists (ErrorObj "Error" "Mistral OCR API error: 503 Service Unavailable").
  split; [vm_compute; reflexivity |].
  split; [reflexivity |].
  split; [unfold is_ExtractionUnavailable; cbn; discriminate |].
  vm_compute. reflexivity.
Qed.

(** C6 (amended).  When the OCR call fails, by a response that is not OK
    or by a rejected [fetch], [processPDFWithMistralOCR] reports the error
    to [captureException] and rethrows it: the [Error] made from the
    status line, whose class is plain [Error], or the value [fetch]
    rejected with.  It makes no further call.  The loop of
    [processPDFAttachments] catches that error and pushes, after the
    entries it has, the attachment with the failure record: [success]
    false, neither text nor data, and as [error] the status line
    "Mistral OCR API error: <status> <statusText>" of a response that is
    not OK, or the message of what [fetch] rejected with. *)
Theorem ocr_failure_rethrown (key : string) (w : World) (id : string) (a : Attachment)
    (h : list AnyEvent) (d : AttachmentData) (answer : result Response) :
  w h _ (GetAttachment id (attachmentId a)) = inr d ->
  w (h ++ retrieval_calls id a d) _
    (Fetch MISTRAL_OCR_ENDPOINT (ocr_request key a d)) = answer ->
  ocr_call_failed answer ->
  run w (processPDFWithMistralOCR key id a) h
    = (inl (ocr_call_error answer), failed_ocr_calls key id a d (ocr_call_error answer))
  /\ (forall response,
        answer = inr response -> error_name (ocr_call_error answer) = Some "Error")
  /\ (is_pdf a = true ->
      forall enriched,
        fst (run w (enrich_one key id a enriched) h)
        = inr (enriched
               ++ [ {| attachment_of := a;
                       ocrResult :=
                         Some {| ocr_attachmentId := attachmentId a;
                                 ocr_filename := filename a;
                                 success := false;
                                 ocrText := None;
                                 extractedData := None;
                                 error := Some (ocr_failure_message answer) |} |} ])).
Proof.
  intros Hget Hfetch Hfail.
  pose proof (failed_ocr_run key w id a h d answer Hget Hfetch Hfail) as Hrun.
  split; [exact Hrun |].
  split; [intros response ->; reflexivity |].
  intros Hpdf enriched.
  destruct (enrich_one_run key w id a enriched h) as (entry & Hval & [Ha Hentry] & _).
  rewrite Hpdf, Hrun in Hentry. cbn [fst] in Hentry.
  destruct Hentry as (message & Hmessage & Hocr).
  rewrite Hval. do 3 f_equal.
  destruct entry as [a' ocr]. cbn in Ha, Hocr. subst a' ocr.
  unfold failure_record. do 4 f_equal.
  destruct answer as [[name m | rendering] | response]; cbn in Hmessage; exact Hmessage.
Qed.

Lemma ocr_failure_rethrown_witness :
  run Sample.down (processPDFWithMistralOCR Sample.key "msg-1" Sample.bill) []
    = (inl (ocr_call_error (inr Sample.response_down)),
       failed_ocr_calls Sample.key "msg-1" Sample.bill
         {| data := "JVBERi0xLjQK"; size := 9 |}
         (ocr_call_error (inr Sample.response_down)))
  /\ (forall response,
        @inr thrown Response Sample.response_down = inr response ->
        error_name (ocr_call_error (inr Sample.response_down)) = Some "Error")
  /\ (is_pdf Sample.bill = true ->
      forall enriched,
        fst (run Sample.down (enrich_one Sample.key "msg-1" Sample.bill enriched) [])
        = inr (enriched
               ++ [ {| attachment_of := Sample.bill;
                       ocrResult :=
                         Some {| ocr_attachmentId := "att-1";
                                 ocr_filename := "bill.pdf";
                                 success := false;
                                 ocrText := None;
                                 extractedData := None;
                                 error :=
                                   Some "Mistral OCR API error: 503 Service Unavailable" |} |} ])).
Proof.
  apply (ocr_failure_rethrown Sample.key Sample.down "msg-1" Sample.bill []
           {| data := "JVBERi0xLjQK"; size := 9 |} (inr Sample.response_down)).
  - reflexivity.
  - reflexivity.
  - reflexivity.
Defined.

(** ** Idempotence of the merge *)

Module MergeFacts.
Import Merge.

Section Engine.

Variable billableType : string -> bool.
Variable describe : NormalizedRecord -> BillingExtraction -> string.
Variable suggestDuration : NormalizedRecord -> BillingExtraction -> Q.

Local Abbreviation upsertEvent := (upsertEvent describe suggestDuration).
Local Abbreviation merge := (merge billableType describe suggestDuration).
Local Abbreviation mergeState := (mergeState billableType describe suggestDuration).
Local Abbreviation eventSettled := (eventSettled describe suggestDuration).
Local Abbreviation settled := (settled billableType describe suggestDuration).

Lemma enrich_idem (old new : option string) : enrich (enrich old new) new = enrich old new.
Proof.
  unfold enrich.
  destruct (present old) eqn:Ho, (present new) eqn:Hn; rewrite ?Ho, ?Hn; reflexivity.
Qed.

Lemma enrich_self (v : option string) : enrich v v = v.
Proof. unfold enrich. destruct (present v); reflexivity. Qed.

Lemma upsertRecord_settles (r : NormalizedRecord) (g : Graph) :
  recordSettled r (upsertRecord r g).
Proof.
  unfold recordSettled, upsertRecord. cbn. eexists. rewrite lookup_insert_eq.
  split; [reflexivity |].
  destruct (records g !! recordKey r) as [old |]; cbn.
  - rewrite !enrich_idem. auto.
  - rewrite !enrich_self. auto.
Qed.

Lemma upsertRecord_stable (r : NormalizedRecord) (g : Graph) :
  recordSettled r g -> upsertRecord r g = g.
Proof.
  intros (node & Hnode & Hs & Hp). unfold upsertRecord. rewrite Hnode, Hs, Hp.
  destruct g as [cs rs es ed n]. cbn in *. f_equal.
  destruct node. cbn. apply insert_id. exact Hnode.
Qed.

Lemma addEdges_stable (new : gset Edge) (g : Graph) :
  new ⊆ edges g -> addEdges new g = g.
Proof.
  intros H. unfold addEdges. destruct g as [cs rs es ed n]. cbn in *. f_equal.
  rewrite (union_comm_L ed new). apply subseteq_union_1_L. exact H.
Qed.

Lemma upsertEvent_settles (r : NormalizedRecord) (x : BillingExtraction) (c : string)
    (g : Graph) :
  eventSettled r x c (upsertEvent r x c g).
Proof.
  unfold Merge.eventSettled, Merge.upsertEvent.
  destruct (events g !! (recordKey r, c)) as [event |] eqn:He.
  - destruct (status event) eqn:Hs; cbn.
    + rewrite lookup_insert_eq. eexists. split; [reflexivity |]. cbn. auto.
    + exists event. rewrite He, Hs. split; [reflexivity | discriminate].
    + exists event. rewrite He, Hs. split; [reflexivity | discriminate].
  - cbn. rewrite lookup_insert_eq. eexists. split; [reflexivity |]. cbn. auto.
Qed.

Lemma upsertEvent_stable (r : NormalizedRecord) (x : BillingExtraction) (c : string)
    (g : Graph) :
  eventSettled r x c g -> upsertEvent r x c g = g.
Proof.
  intros (event & He & Hd). unfold Merge.upsertEvent. rewrite He.
  destruct (status event) eqn:Hs; [| reflexivity | reflexivity].
  destruct (Hd eq_refl) as [<- <-].
  destruct g as [cs rs es ed n]. cbn in *. f_equal.
  apply insert_id. rewrite He. f_equal. destruct event. cbn in *. subst. reflexivity.
Qed.

Lemma merge_stable (r : NormalizedRecord) (x : option BillingExtraction)
    (caseRef : option string) (g : Graph) :
  settled r x caseRef g -> merge g r x caseRef = inr g.
Proof.
  intros (Hrec & Hpart & Hcase). unfold Merge.merge.
  rewrite (upsertRecord_stable r g Hrec).
  unfold upsertParticipants. fold (participantEdges r).
  rewrite (addEdges_stable _ g Hpart).
  destruct caseRef as [c |]; [| reflexivity].
  destruct Hcase as ([cs Hcs] & Hrel & Hevent & Hfor). rewrite Hcs.
  fold (relatesTo r c).
  rewrite (addEdges_stable {[ relatesTo r c ]} g) by (apply singleton_subseteq_l; exact Hrel).
  assert (match x with
          | Some x' => if hasBillingSignal billableType x then upsertEvent r x' c g else g
          | None => g
          end = g) as ->.
  { destruct x as [x' |]; [| reflexivity].
    destruct (hasBillingSignal billableType (Some x')) eqn:Hsig; [| reflexivity].
    apply upsertEvent_stable. apply Hevent; auto. }
  unfold ensureForCase.
  destruct (events g !! (recordKey r, c)) as [event |] eqn:He; [| reflexivity].
  destruct (Hfor event eq_refl) as [Hsub Hin].
  fold (forCase (eventId event) c).
  rewrite bool_decide_eq_true_2 by exact Hsub.
  rewrite (addEdges_stable {[ forCase (eventId event) c ]} g)
    by (apply singleton_subseteq_l; exact Hin).
  reflexivity.
Qed.

Lemma forCaseEdges_addEdges (event : nat) (new : gset Edge) (g : Graph) :
  forCaseEdges event (addEdges new g)
  = forCaseEdges event g
    ∪ filter (fun e : Edge => e.1.1 = EventNode event /\ e.1.2 = FOR_CASE) new.
Proof. unfold forCaseEdges, addEdges. cbn. apply filter_union_L; apply _. Qed.

Lemma ensureForCase_settles (r : NormalizedRecord) (c : string) (g g' : Graph) :
  ensureForCase r c g = inr g' ->
  cases g' = cases g /\ records g' = records g /\ events g' = events g
  /\ edges g ⊆ edges g'
  /\ (forall event, events g' !! (recordKey r, c) = Some event ->
                    forCaseEdges (eventId event) g' ⊆ {[ forCase (eventId event) c ]}
                    /\ forCase (eventId event) c ∈ edges g').
Proof.
  unfold ensureForCase.
  destruct (events g !! (recordKey r, c)) as [event |] eqn:He.
  - fold (forCase (eventId event) c). case_bool_decide as Hsub; [| discriminate].
    intros [= <-]. cbn. repeat split; auto.
    + apply union_subseteq_l.
    + rewrite He in H. injection H as <-.
      rewrite forCaseEdges_addEdges. apply union_least; [exact Hsub |].
      intros e He'. apply elem_of_filter in He' as [_ He']. exact He'.
    + rewrite He in H. injection H as <-. apply elem_of_union_r, elem_of_singleton.
      reflexivity.
  - intros [= <-]. repeat split; auto. all: rewrite He in H; discriminate.
Qed.

Lemma merge_settles (r : NormalizedRecord) (x : option BillingExtraction)
    (caseRef : option string) (g g' : Graph) :
  merge g r x caseRef = inr g' -> settled r x caseRef g'.
Proof.
  unfold Merge.merge.
  pose proof (upsertRecord_settles r g) as Hrec.
  set (g1 := upsertRecord r g) in *.
  unfold upsertParticipants. fold (participantEdges r).
  set (g2 := addEdges (participantEdges r) g1).
  assert (recordSettled r g2) as Hrec2 by exact Hrec.
  assert (participantEdges r ⊆ edges g2) as Hpart2 by apply union_subseteq_r.
  destruct caseRef as [c |].
  2: { intros [= <-]. repeat split; auto. }
  destruct (cases g2 !! c) as [cs |] eqn:Hcs; [| discriminate].
  fold (relatesTo r c).
  set (g3 := addEdges {[ relatesTo r c ]} g2).
  set (g4 := match x with
             | Some x' => if hasBillingSignal billableType x then upsertEvent r x' c g3 else g3
             | None => g3
             end).
  intros Hensure.
  destruct (ensureForCase_settles r c g4 g' Hensure) as (Hc & Hr & He & Hed & Hfor).
  assert (cases g4 = cases g2 /\ records g4 = records g2 /\ edges g3 ⊆ edges g4) as (Hc4 & Hr4 & Hed4).
  { subst g4. destruct x as [x' |]; [| auto].
    destruct (hasBillingSignal billableType (Some x')); [| auto].
    unfold Merge.upsertEvent. destruct (events g3 !! (recordKey r, c)) as [event |].
    - destruct (status event); cbn; auto.
    - cbn. repeat split; auto. apply union_subseteq_l. }
  assert (edges g2 ⊆ edges g3) as Hed3 by apply union_subseteq_l.
  assert (relatesTo r c ∈ edges g3) as Hrel3
    by (apply elem_of_union_r, elem_of_singleton; reflexivity).
  split.
  { destruct Hrec2 as (node & Hnode & Hs). exists node.
    rewrite Hr, Hr4. split; [exact Hnode | exact Hs]. }
  split; [etrans; [exact Hpart2 |]; etrans; [exact Hed3 |]; etrans; [exact Hed4 | exact Hed] |].
  split; [rewrite Hc, Hc4, Hcs; eauto |].
  split; [apply Hed, Hed4, Hrel3 |].
  split; [| exact Hfor].
  intros x' -> Hsig. unfold Merge.eventSettled. rewrite He. subst g4. rewrite Hsig.
  apply upsertEvent_settles.
Qed.

Lemma merge_idempotent (r : NormalizedRecord) (x : option BillingExtraction)
    (caseRef : option string) (g g' : Graph) :
  merge g r x caseRef = inr g' -> merge g' r x caseRef = inr g'.
Proof. intros H. apply merge_stable. exact (merge_settles r x caseRef g g' H). Qed.

Lemma mergeState_idempotent (r : NormalizedRecord) (x : option BillingExtraction)
    (caseRef : option string) (g : Graph) :
  mergeState r x caseRef (mergeState r x caseRef g) = mergeState r x caseRef g.
Proof.
  unfold Merge.mergeState at 2 3.
  destruct (merge g r x caseRef) as [e | g'] eqn:H.
  - unfold Merge.mergeState. rewrite H. reflexivity.
  - unfold Merge.mergeState. rewrite (merge_idempotent r x caseRef g g' H). reflexivity.
Qed.

Lemma mergeState_iter (r : NormalizedRecord) (x : option BillingExtraction)
    (caseRef : option string) (g : Graph) (n : nat) :
  1 <= n ->
  Nat.iter n (mergeState r x caseRef) g = mergeState r x caseRef g.
Proof.
  intros Hn. destruct n as [| n]; [lia |]. clear Hn.
  induction n as [| n IH]; [reflexivity |].
  change (Nat.iter (S (S n)) (mergeState r x caseRef) g)
    with (mergeState r x caseRef (Nat.iter (S n) (mergeState r x caseRef) g)).
  rewrite IH. apply mergeState_idempotent.
Qed.

End Engine.
End MergeFacts.

(** C1.  Merging the same (record, extraction, case) triple any number of
    times, at least once, leaves the graph in the state the first merge
    left it in: a merge that succeeded succeeds again and changes nothing,
    and a merge that failed changed nothing in the first place.  Nodes are
    stored under their keys and edges in a set, so that no node and no edge
    is there twice. *)
Theorem merge_idempotence
    (billableType : string -> bool)
    (describe : Merge.NormalizedRecord -> Merge.BillingExtraction -> string)
    (suggestDuration : Merge.NormalizedRecord -> Merge.BillingExtraction -> Q)
    (r : Merge.NormalizedRecord) (x : option Merge.BillingExtraction)
    (caseRef : option string) (g : Merge.Graph) (n : nat) :
  1 <= n ->
  Nat.iter n (Merge.mergeState billableType describe suggestDuration r x caseRef) g
  = Merge.mergeState billableType describe suggestDuration r x caseRef g
  /\ (forall g',
        Merge.merge billableType describe suggestDuration g r x caseRef = inr g' ->
        Merge.merge billableType describe suggestDuration g' r x caseRef = inr g').
Proof.
  intros Hn. split.
  - apply MergeFacts.mergeState_iter. exact Hn.
  - intros g'. apply MergeFacts.merge_idempotent.
Qed.

Lemma merge_idempotence_witness :
  Nat.iter 3
    (Merge.mergeState Merge.Scenario.billableType Merge.Scenario.describe
       Merge.Scenario.suggestDuration Merge.Scenario.email
       (Some Merge.Scenario.extraction) (Some Merge.Scenario.caseKey))
    Merge.Scenario.store
  = Merge.Scenario.once
  /\ (forall g',
        Merge.merge Merge.Scenario.billableType Merge.Scenario.describe
          Merge.Scenario.suggestDuration Merge.Scenario.store Merge.Scenario.email
          (Some Merge.Scenario.extraction) (Some Merge.Scenario.caseKey) = inr g' ->
        Merge.merge Merge.Scenario.billableType Merge.Scenario.describe
          Merge.Scenario.suggestDuration g' Merge.Scenario.email
          (Some Merge.Scenario.extraction) (Some Merge.Scenario.caseKey) = inr g').
Proof.
  apply (merge_idempotence Merge.Scenario.billableType Merge.Scenario.describe
           Merge.Scenario.suggestDuration Merge.Scenario.email
           (Some Merge.Scenario.extraction) (Some Merge.Scenario.caseKey)
           Merge.Scenario.store 3).
  lia.
Defined.

(** Scenario A: one draft event, with its FOR_CASE edge. *)
Example scenario_A :
  Merge.events Merge.Scenario.once
    !! (Merge.recordKey Merge.Scenario.email, Merge.Scenario.caseKey)
  = Some {| Merge.eventId := 0;
            Merge.description := "legal_invoice from <msg-1@mail.example>";
            Merge.eventTimestamp := 1762300800000;
            Merge.suggestedDurationHours := 1 # 4;
            Merge.status := Merge.draft;
            Merge.sourceType := Merge.Email |}
  /\ base.size (Merge.events Merge.Scenario.once) = 1
  /\ Merge.forCaseEdges 0 Merge.Scenario.once = {[ Merge.forCase 0 Merge.Scenario.caseKey ]}
  /\ base.size (Merge.edges Merge.Scenario.once) = 5.
Proof. repeat split; vm_compute; reflexivity. Qed.

(** Scenario D: an unknown case is an error and the store keeps its state. *)
Example scenario_D :
  Merge.merge Merge.Scenario.billableType Merge.Scenario.describe
    Merge.Scenario.suggestDuration Merge.Scenario.store Merge.Scenario.email
    (Some Merge.Scenario.extraction) (Some "CV-9999-999")
  = inl (Merge.UnknownCaseError "CV-9999-999").
Proof. vm_compute. reflexivity. Qed.

(** * Further properties of the code *)

(** ** The matcher finds only what the pattern describes *)

Module RegexSound.
Import Regex RegexSpec RegexFacts.

Lemma take_app_length (m s' : string) :
  Js.take (String.length (m +:+ s') - String.length s') (m +:+ s') = m.
Proof.
  induction m as [| c m IH]; cbn [String.append String.length].
  - rewrite Nat.sub_diag. destruct s'; reflexivity.
  - change (String c m +:+ s') with (String c (m +:+ s')).
    cbn [String.length].
    assert (String.length s' <= String.length (m +:+ s')) as Hle.
    { clear. induction m; cbn [String.length]; [reflexivity |].
      change (String a m +:+ s') with (String a (m +:+ s')). cbn [String.length]. lia. }
    replace (S (String.length (m +:+ s')) - String.length s')
      with (S (String.length (m +:+ s') - String.length s')) by lia.
    cbn [Js.take]. rewrite IH. reflexivity.
Qed.

Lemma rep_sound (greedy : bool) (p : ascii -> bool) (k : cont) (s : string) :
  forall lo hi prev cap res,
    rep greedy p k lo hi prev s cap = Some res ->
    exists m s' prev',
      s = m +:+ s' /\ all_of p m = true /\ lo <= String.length m
      /\ within hi (String.length m) /\ k prev' s' cap = Some res.
Proof.
  induction s as [| c s IH]; intros lo hi prev cap res H.
  - exists "", "", prev.
    cbn [rep] in H. destruct greedy; apply orelse_some in H as [H | H];
      try discriminate; destruct lo; try discriminate;
      (split; [reflexivity |]; split; [reflexivity |]; split; [cbn; lia |];
       split; [destruct hi; cbn; lia | exact H]).
  - assert ((lo = 0 /\ k prev (String c s) cap = Some res)
            \/ (hi_open hi = true /\ p c = true
                /\ rep greedy p k (Nat.pred lo) (hi_pred hi) (Some c) s cap = Some res))
      as [[Hlo Hk] | (Hhi & Hp & Hr)].
    { cbn [rep] in H. destruct greedy.
      - apply orelse_some in H as [H | H].
        + right. destruct (hi_open hi), (p c); try discriminate. auto.
        + left. destruct lo; [auto | discriminate].
      - apply orelse_some in H as [H | H].
        + left. destruct lo; [auto | discriminate].
        + right. destruct (hi_open hi), (p c); try discriminate. auto. }
    + exists "", (String c s), prev. subst lo.
      split; [reflexivity |]. split; [reflexivity |]. split; [cbn; lia |].
      split; [destruct hi; cbn; lia | exact Hk].
    + destruct (IH _ _ _ _ _ Hr) as (m & s' & prev' & -> & Hall & Hlen & Hin & Hk).
      exists (String c m), s', prev'.
      split; [reflexivity |]. split; [cbn; rewrite Hp, Hall; reflexivity |].
      split; [cbn [String.length]; lia |]. split; [| exact Hk].
      destruct hi as [[| h] |]; cbn in *; try discriminate; lia.
Qed.

(** Whenever the matcher succeeds on a pattern, it has consumed a text that
    the pattern matches and has handed the rest to the continuation. *)
Lemma run_sound (r : regex) :
  forall prev s cap k res,
    run r prev s cap k = Some res ->
    exists m s' prev' cap',
      s = m +:+ s' /\ matches r cap m cap' /\ k prev' s' cap' = Some res.
Proof.
  induction r as [| p | r1 IH1 r2 IH2 | r1 IH1 r2 IH2 | greedy p lo hi | r1 IH1 |];
    intros prev s cap k res H; cbn [run] in H.
  - exists "", s, prev, cap. split; [reflexivity |]. split; [constructor | exact H].
  - destruct s as [| c s]; [discriminate |]. destruct (p c) eqn:Hp; [| discriminate].
    exists (String c ""), s, (Some c), cap.
    split; [reflexivity |]. split; [constructor; exact Hp | exact H].
  - apply IH1 in H as (m1 & s1 & prev1 & cap1 & -> & Hm1 & H).
    apply IH2 in H as (m2 & s2 & prev2 & cap2 & -> & Hm2 & H).
    exists (m1 +:+ m2), s2, prev2, cap2.
    split; [symmetry; apply string_app_assoc |].
    split; [econstructor; eassumption | exact H].
  - apply orelse_some in H as [H | H].
    + apply IH1 in H as (m & s' & prev' & cap' & -> & Hm & H).
      exists m, s', prev', cap'.
      split; [reflexivity |]. split; [apply matches_Alt_l; exact Hm | exact H].
    + apply IH2 in H as (m & s' & prev' & cap' & -> & Hm & H).
      exists m, s', prev', cap'.
      split; [reflexivity |]. split; [apply matches_Alt_r; exact Hm | exact H].
  - apply rep_sound in H as (m & s' & prev' & -> & Hall & Hlo & Hhi & H).
    exists m, s', prev', cap.
    split; [reflexivity |]. split; [constructor; assumption | exact H].
  - apply IH1 in H as (m & s' & prev' & cap' & -> & Hm & H).
    rewrite take_app_length in H.
    exists m, s', prev', (Some m).
    split; [reflexivity |]. split; [econstructor; exact Hm | exact H].
  - exists "", s, prev, cap. split; [reflexivity |]. split; [constructor |].
    destruct prev as [c |]; [destruct (Js.is_line_terminator c); [exact H | discriminate]
                            | exact H].
Qed.

(** A successful [exec] found, somewhere in the text, a part the pattern
    matches, and returns the capture that match leaves. *)
Lemma exec_sound (r : regex) (text : string) (res : option string) :
  exec r text = Some res ->
  exists pre m post, text = pre +:+ m +:+ post /\ matches r None m res.
Proof.
  intros H. apply search_position in H as (pre & s' & prev' & -> & H).
  unfold match_at in H.
  apply run_sound in H as (m & post & prev'' & cap' & -> & Hm & H).
  unfold accept in H. injection H as <-. eauto.
Qed.

End RegexSound.

(** ** What the fields of [extractBillingData] hold *)

Module FieldFacts.
Import Regex RegexSpec RegexFacts RegexSound.

Lemma matches_lit_i (w : string) :
  lower_word w ->
  forall cap m cap', matches (lit_i w) cap m cap' -> cap' = cap /\ Js.toLowerCase m = w.
Proof.
  unfold lower_word. induction w as [| a w IH]; intros Hw cap m cap' H; cbn in H.
  - inv H. auto.
  - cbn in Hw. inversion Hw as [| ? ? Ha Hw']; subst. inv H.
    match goal with H : matches (Chr _) _ _ _ |- _ => inv H end.
    match goal with H : matches (lit_i w) _ _ _ |- _ => apply (IH Hw') in H as [-> Hm] end.
    split; [reflexivity |].
    change (String c "" +:+ m2) with (String c m2). cbn [Js.toLowerCase].
    erewrite is_char_i_lower by eassumption. rewrite Hm. reflexivity.
Qed.

Lemma matches_lit (w : string) :
  forall cap m cap', matches (lit w) cap m cap' -> cap' = cap /\ m = w.
Proof.
  induction w as [| a w IH]; intros cap m cap' H; cbn in H.
  - inv H. auto.
  - inv H.
    match goal with H : matches (Chr _) _ _ _ |- _ => inv H end.
    match goal with H : matches (lit w) _ _ _ |- _ => apply IH in H as [-> ->] end.
    match goal with H : is_char _ _ = true |- _ => apply Ascii.eqb_eq in H; subst end.
    auto.
Qed.

Lemma matches_Rep_inv (greedy : bool) (p : ascii -> bool) (lo : nat) (hi : option nat)
    (cap : option string) (m : string) (cap' : option string) :
  matches (Rep greedy p lo hi) cap m cap' ->
  cap' = cap /\ all_of p m = true /\ lo <= String.length m /\ within hi (String.length m).
Proof. intros H. inv H. auto. Qed.

(** At most one character of a one-character class. *)
Lemma opt_char (a : ascii) (m : string) :
  all_of (is_char a) m = true -> String.length m <= 1 -> m = "" \/ m = String a "".
Proof.
  destruct m as [| c [| c' m]]; cbn; intros H Hlen; [auto | | lia].
  right. rewrite andb_true_r in H. apply Ascii.eqb_eq in H. subst. reflexivity.
Qed.

Lemma matches_amount_group (cap : option string) (m : string) (cap' : option string) :
  matches Patterns.amount_group cap m cap' -> cap' = Some m /\ amount_shape m.
Proof.
  unfold Patterns.amount_group. cbn [seq]. intros H. inv H. split; [reflexivity |].
  match goal with H : matches (Seq _ _) _ _ _ |- _ => inv H end.
  match goal with H : matches (Seq _ _) _ _ _ |- _ => inv H end.
  repeat match goal with
         | H : matches (plus _) _ _ _ |- _ => apply matches_Rep_inv in H as (-> & ? & ? & _)
         | H : matches (opt _) _ _ _ |- _ => apply matches_Rep_inv in H as (-> & ? & _ & ?)
         | H : matches (star _) _ _ _ |- _ => apply matches_Rep_inv in H as (_ & ? & _ & _)
         end.
  eexists _, _, _. repeat split; eauto.
  match goal with
  | Hs : all_of (is_char ".") ?m = true, Hl : within (Some 1) (String.length ?m) |- _ =>
      exact (opt_char "." m Hs Hl)
  end.
Qed.

Lemma exec_label_amount (label text : string) (res : option string) :
  lower_word label ->
  exec (seq [lit_i label; star Patterns.colon_or_space; opt (is_char "$");
             Patterns.amount_group]) text = Some res ->
  exists c sign,
    res = Some c /\ amount_shape c /\ (sign = "" \/ sign = "$")
    /\ follows_label label sign c text.
Proof.
  intros Hw H. apply exec_sound in H as (pre & m & post & -> & H).
  cbn [seq] in H. inv H.
  match goal with H : matches (Seq _ _) _ _ _ |- _ => inv H end.
  match goal with H : matches (Seq _ _) _ _ _ |- _ => inv H end.
  match goal with H : matches (lit_i _) _ _ _ |- _ => apply (matches_lit_i _ Hw) in H as [-> Hword] end.
  match goal with H : matches (star _) _ _ _ |- _ => apply matches_Rep_inv in H as (-> & Hgap & _ & _) end.
  match goal with H : matches (opt _) _ _ _ |- _ => apply matches_Rep_inv in H as (-> & Hsign & _ & Hlen) end.
  match goal with H : matches Patterns.amount_group _ _ _ |- _ =>
    apply matches_amount_group in H as [-> Hshape] end.
  eexists _, _. split; [reflexivity |]. split; [exact Hshape |].
  split; [exact (opt_char "$" _ Hsign Hlen) |].
  eexists pre, _, _, post. split; [| split; [exact Hword | exact Hgap]].
  rewrite !string_app_assoc. reflexivity.
Qed.

Lemma exec_dollar_amount (text : string) (res : option string) :
  exec Patterns.dollar_pattern text = Some res ->
  exists c, res = Some c /\ amount_shape c /\ occurs ("$" +:+ c) text.
Proof.
  intros H. apply exec_sound in H as (pre & m & post & -> & H).
  unfold Patterns.dollar_pattern in H. cbn [seq] in H. inv H.
  match goal with
  | H : matches _ None _ _ |- _ => apply (matches_lit "$") in H as [-> ->]
  end.
  match goal with H : matches Patterns.amount_group _ _ _ |- _ =>
    apply matches_amount_group in H as [-> Hshape] end.
  eexists. split; [reflexivity |]. split; [exact Hshape |].
  exists pre, post. rewrite !string_app_assoc. reflexivity.
Qed.

Lemma lower_total : lower_word "total".
Proof. unfold lower_word. cbn. repeat constructor. Qed.

Lemma lower_amount : lower_word "amount".
Proof. unfold lower_word. cbn. repeat constructor. Qed.

Lemma lower_due : lower_word "due".
Proof. unfold lower_word. cbn. repeat constructor. Qed.

Lemma lower_invoice : lower_word "invoice".
Proof. unfold lower_word. cbn. repeat constructor. Qed.

(** The amount is read from a capture of the amount shape that stands
    where one of the three patterns looks. *)
Lemma firstAmount_capture (text : string) (n : JsNumber) :
  firstAmount Patterns.amountPatterns text = Some n ->
  exists c, n = Number.parseFloat c /\ amount_shape c /\ amount_place c text.
Proof.
  unfold Patterns.amountPatterns. cbn [firstAmount].
  destruct (exec Patterns.total_pattern text) as [m |] eqn:Ht.
  { intros [= <-]. apply (exec_label_amount "total" text m lower_total) in Ht
      as (c & sign & -> & Hshape & Hsign & Hplace).
    exists c. repeat split; auto. left. exists sign. auto. }
  destruct (exec Patterns.amount_pattern text) as [m |] eqn:Ha.
  { intros [= <-]. apply (exec_label_amount "amount" text m lower_amount) in Ha
      as (c & sign & -> & Hshape & Hsign & Hplace).
    exists c. repeat split; auto. left. exists sign. auto. }
  destruct (exec Patterns.dollar_pattern text) as [m |] eqn:Hd; [| discriminate].
  intros [= <-]. apply exec_dollar_amount in Hd as (c & -> & Hshape & Hplace).
  exists c. repeat split; auto. right. exact Hplace.
Qed.

(** *** [parseFloat] on a capture *)

Lemma digits_count (s : string) :
  forall acc n, n <= snd (fst (Number.digits acc n s)).
Proof.
  induction s as [| c s IH]; intros acc n; cbn; [lia |].
  destruct (Js.is_digit c); cbn; [| lia].
  specialize (IH (acc * 10 + Number.digit c)%N (S n)). lia.
Qed.

Lemma scaled_positive (n d e : Z) :
  (0 <= n)%Z -> (0 < d)%Z ->
  (0 <= fst (Number.scaled n d e))%Z /\ (0 < snd (Number.scaled n d e))%Z.
Proof.
  intros Hn Hd. unfold Number.scaled. destruct (0 <=? e)%Z eqn:He; cbn [fst snd].
  - apply Z.leb_le in He. pose proof (Z.pow_pos_nonneg 2 e). nia.
  - apply Z.leb_gt in He. pose proof (Z.pow_pos_nonneg 2 (- e)). nia.
Qed.

(** Rounding gives neither NaN nor a negative number. *)
Lemma round_binary64_nonnegative (n d : Z) :
  (0 <= n)%Z -> (0 < d)%Z -> nonnegative (Number.round_binary64 n d).
Proof.
  intros Hn Hd. unfold Number.round_binary64.
  destruct (Number.scaled n d (Z.log2 n - Z.log2 d)) as [n0 d0].
  set (e := Z.max _ _).
  pose proof (scaled_positive n d e Hn Hd) as [Hn1 Hd1].
  destruct (Number.scaled n d e) as [n1 d1]. cbn [fst snd] in Hn1, Hd1.
  set (m := (n1 / d1)%Z).
  assert (0 <= m)%Z as Hm by (apply Z.div_pos; lia).
  set (m' := match (2 * (n1 mod d1) ?= d1)%Z with
             | Eq => if Z.even m then m else (m + 1)%Z
             | Lt => m
             | Gt => (m + 1)%Z
             end).
  assert (0 <= m')%Z as Hm'.
  { unfold m'. destruct (2 * (n1 mod d1) ?= d1)%Z; [destruct (Z.even m) | |]; lia. }
  destruct (0 <=? e)%Z eqn:He.
  - destruct (2 ^ 1024 <=? m' * 2 ^ e)%Z; [exact I |].
    apply Z.leb_le in He. pose proof (Z.pow_pos_nonneg 2 e).
    cbn [nonnegative]. unfold Qle, inject_Z. cbn. nia.
  - cbn [nonnegative]. rewrite Qred_correct. unfold Qle. cbn. lia.
Qed.

Lemma of_decimal_nonnegative (mantissa : N) (e10 : Z) :
  nonnegative (Number.of_decimal mantissa e10).
Proof.
  unfold Number.of_decimal. destruct mantissa as [| p].
  - cbn. unfold Qle. cbn. lia.
  - destruct (0 <=? e10)%Z eqn:He; apply round_binary64_nonnegative; try lia.
    all: first [apply Z.leb_le in He | apply Z.leb_gt in He].
    all: first [apply Z.pow_pos_nonneg; lia
               | pose proof (Z.pow_pos_nonneg 10 e10); nia].
Qed.

(** A text that starts with a digit is read from its first character on,
    and it has a value. *)
Lemma parseFloat_digit_first (c : ascii) (s : string) :
  Js.is_digit c = true -> nonnegative (Number.parseFloat (String c s)).
Proof.
  intros Hc.
  assert (Number.parseFloat (String c s) = Number.unsigned (String c s)) as ->.
  { destruct c as [[] [] [] [] [] [] [] []];
      try (vm_compute in Hc; discriminate Hc); reflexivity. }
  unfold Number.unsigned.
  assert (Js.startsWith "Infinity" (String c s) = false) as ->.
  { destruct c as [[] [] [] [] [] [] [] []];
      try (vm_compute in Hc; discriminate Hc); reflexivity. }
  cbn [Number.digits]. rewrite Hc.
  pose proof (digits_count s (0 * 10 + Number.digit c)%N 1) as Hn.
  destruct (Number.digits (0 * 10 + Number.digit c) 1 s) as [[int n] rest].
  cbn [fst snd] in Hn. destruct n as [| n]; [lia |].
  destruct rest as [| a frac]; [apply of_decimal_nonnegative |].
  destruct (Ascii.eqb a ".") eqn:Ea.
  - apply Ascii.eqb_eq in Ea. subst a.
    destruct (Number.digits int 0 frac) as [[num k] rest'].
    apply of_decimal_nonnegative.
  - assert (a <> "."%char) as Hne by (intros ->; rewrite Ascii.eqb_refl in Ea; discriminate).
    destruct a as [[] [] [] [] [] [] [] []]; try apply of_decimal_nonnegative.
    exfalso. apply Hne. reflexivity.
Qed.

(** The value is rounded to a binary64 number: to the nearest one, to the
    one with the even significand when two are as near, and to [Infinity]
    when it is too large. *)
Example parseFloat_rounds_to_even :
  Number.parseFloat "9007199254740993" = Num 9007199254740992
  /\ Number.parseFloat "9007199254740995" = Num 9007199254740996.
Proof. split; vm_compute; reflexivity. Qed.

Example parseFloat_one_tenth :
  Number.parseFloat "0.10" = Num (3602879701896397 # 36028797018963968).
Proof. vm_compute. reflexivity. Qed.

Example parseFloat_overflow :
  Number.parseFloat "1.7976931348623157e308" = Num (inject_Z ((2 ^ 53 - 1) * 2 ^ 971))
  /\ Number.parseFloat "1.7976931348623159e308" = Infinity
  /\ Number.parseFloat "1e400" = Infinity.
Proof. repeat split; vm_compute; reflexivity. Qed.

Lemma amount_shape_digit_first (c : string) :
  amount_shape c -> exists d rest, c = String d rest /\ Js.is_digit d = true.
Proof.
  intros (int & dot & frac & -> & Hint & Hlen & _).
  destruct int as [| d int]; [cbn in Hlen; lia |].
  cbn in Hint. apply andb_true_iff in Hint as [Hd _].
  exists d, (int +:+ dot +:+ frac). auto.
Qed.

Lemma amount_shape_number (c : string) :
  amount_shape c -> nonnegative (Number.parseFloat c).
Proof.
  intros H. apply amount_shape_digit_first in H as (d & rest & -> & Hd).
  exact (parseFloat_digit_first d rest Hd).
Qed.

End FieldFacts.

(** X1.  A total amount, when the extraction gives one, is a number that
    is not NaN and not negative.  It is read from a part of the text made
    of digits with at most one dot, which stands right after the word
    total or amount (in any case, with colons, white space and possibly a
    dollar sign in between) or right after a dollar sign. *)
Theorem totalAmount_is_an_amount (text : string) (n : JsNumber) :
  totalAmount (extractFromText text) = Some n ->
  nonnegative n
  /\ exists c, n = Number.parseFloat c /\ amount_shape c /\ amount_place c text.
Proof.
  cbn [extractFromText totalAmount]. intros H.
  apply FieldFacts.firstAmount_capture in H as (c & -> & Hshape & Hplace).
  split; [exact (FieldFacts.amount_shape_number c Hshape) | eauto].
Qed.

Lemma totalAmount_is_an_amount_witness :
  nonnegative (Num (25 # 2))
  /\ exists c, Num (25 # 2) = Number.parseFloat c /\ amount_shape c
               /\ amount_place c "Amount due: $12.50 by 3/4/2026".
Proof.
  apply (totalAmount_is_an_amount "Amount due: $12.50 by 3/4/2026"). reflexivity.
Defined.

Module DateFacts.
Import Regex RegexSpec RegexFacts RegexSound FieldFacts.

Lemma length_app (a b : string) :
  String.length (a +:+ b) = String.length a + String.length b.
Proof.
  induction a as [| c a IH]; [reflexivity |].
  change (String c a +:+ b) with (String c (a +:+ b)). cbn [String.length]. lia.
Qed.

(** A pattern made of a label, a gap and a group. *)
Lemma exec_label_group (label : string) (g : regex) (text : string) (res : option string) :
  lower_word label ->
  exec (Seq (lit_i label) (Seq (star Patterns.colon_or_space) (Group g))) text = Some res ->
  exists c cap cap',
    res = Some c /\ matches g cap c cap' /\ follows_label label "" c text.
Proof.
  intros Hw H. apply exec_sound in H as (pre & m & post & -> & H).
  inv H.
  match goal with H : matches (Seq _ _) _ _ _ |- _ => inv H end.
  match goal with H : matches (lit_i _) _ _ _ |- _ =>
    apply (matches_lit_i _ Hw) in H as [-> Hword] end.
  match goal with H : matches (star _) _ _ _ |- _ =>
    apply matches_Rep_inv in H as (-> & Hgap & _ & _) end.
  match goal with H : matches (Group _) _ _ _ |- _ => inv H end.
  eexists _, _, _. split; [reflexivity |]. split; [eassumption |].
  eexists pre, _, _, post. split; [| split; [reflexivity | exact Hgap]].
  cbn [String.append]. rewrite !string_app_assoc. reflexivity.
Qed.

Lemma exec_dueDate (text : string) (res : option string) :
  exec Patterns.dueDatePattern text = Some res ->
  exists c, res = Some c /\ date_shape c /\ follows_label "due" "" c text.
Proof.
  intros H. apply (exec_label_group "due" _ text res lower_due) in H
    as (c & cap & cap' & -> & H & Hplace).
  exists c. split; [reflexivity |]. split; [| exact Hplace].
  cbn [seq] in H.
  repeat match goal with H : matches (Seq _ _) _ _ _ |- _ => inv H end.
  repeat match goal with
         | H : matches (Rep _ _ _ _) _ _ _ |- _ =>
             apply matches_Rep_inv in H as (? & ? & ? & ?)
         | H : matches (between _ _ _) _ _ _ |- _ =>
             apply matches_Rep_inv in H as (? & ? & ? & ?)
         | H : matches (Chr _) _ _ _ |- _ => inv H
         end.
  eexists _, _, _, _, _. split; [reflexivity |]. cbn [within] in *. repeat split; eauto.
Qed.

Lemma date_shape_length (c : string) : date_shape c -> 5 <= String.length c <= 10.
Proof.
  intros (d1 & s1 & d2 & s2 & d3 & -> & _ & H1 & _ & _ & H2 & _ & _ & H3).
  rewrite length_app. cbn [String.length]. rewrite length_app. cbn [String.length]. lia.
Qed.

Lemma exec_invoice (text : string) (res : option string) :
  exec Patterns.invoicePattern text = Some res ->
  exists c, res = Some c /\ invoice_shape c /\ follows_label "invoice" "" c text.
Proof.
  intros H. apply (exec_label_group "invoice" _ text res lower_invoice) in H
    as (c & cap & cap' & -> & H & Hplace).
  exists c. split; [reflexivity |]. split; [| exact Hplace].
  cbn [seq] in H. inv H.
  match goal with
  | H1 : matches (opt _) _ ?m1 _, H2 : matches (plus _) _ ?m2 _ |- _ =>
      apply matches_Rep_inv in H1 as (_ & Hhash & _ & Hlen);
      apply matches_Rep_inv in H2 as (_ & Hw & Hwl & _);
      exists m1, m2
  end.
  split; [reflexivity |]. split; [exact (opt_char "#" _ Hhash Hlen) | auto].
Qed.

Lemma follows_label_occurs_ci (label sign c text : string) :
  follows_label label sign c text -> occurs_ci label text.
Proof.
  intros (pre & word & gap & post & -> & Hword & _).
  exists pre, word, (gap +:+ sign +:+ c +:+ post). auto.
Qed.

Lemma classify_invoice (text : string) :
  occurs_ci "invoice" text -> classify text <> None.
Proof.
  intros H. apply includes_lower_spec in H. unfold classify. rewrite H.
  destruct (Js.includes (Js.toLowerCase text) "phone" || Js.includes (Js.toLowerCase text) "telecom");
    [discriminate |].
  destruct (Js.includes (Js.toLowerCase text) "legal" || Js.includes (Js.toLowerCase text) "attorney");
    discriminate.
Qed.

End DateFacts.

(** X2.  A due date, when the extraction gives one, is a part of the text
    as it is written: one or two digits, a slash or a dash, one or two
    digits, a slash or a dash, and two to four digits, so five to ten
    characters; it stands right after the word due (in any case), with
    only colons and white space in between. *)
Theorem dueDate_is_a_date (text date : string) :
  dueDate (extractFromText text) = Some date ->
  date_shape date
  /\ 5 <= String.length date <= 10
  /\ follows_label "due" "" date text.
Proof.
  cbn [extractFromText dueDate].
  destruct (Regex.exec Patterns.dueDatePattern text) as [m |] eqn:H; [| discriminate].
  apply DateFacts.exec_dueDate in H as (c & -> & Hshape & Hplace).
  intros [= <-]. cbn [group1 default].
  split; [exact Hshape |]. split; [exact (DateFacts.date_shape_length c Hshape) | exact Hplace].
Qed.

Lemma dueDate_is_a_date_witness :
  date_shape "12/01/2025"
  /\ 5 <= String.length "12/01/2025" <= 10
  /\ follows_label "due" "" "12/01/2025" Sample.text.
Proof. apply (dueDate_is_a_date Sample.text "12/01/2025"). reflexivity. Defined.

(** X3.  An invoice number, when the extraction gives one, is a part of
    the text as it is written: one word character or more, possibly after
    a hash sign; it stands right after the word invoice (in any case), with
    only colons and white space in between.  The text then has a document
    type too. *)
Theorem invoiceNumber_is_a_word (text number : string) :
  invoiceNumber (extractFromText text) = Some number ->
  invoice_shape number
  /\ follows_label "invoice" "" number text
  /\ documentType (extractFromText text) <> None.
Proof.
  cbn [extractFromText invoiceNumber documentType].
  destruct (Regex.exec Patterns.invoicePattern text) as [m |] eqn:H; [| discriminate].
  apply DateFacts.exec_invoice in H as (c & -> & Hshape & Hplace).
  intros [= <-]. cbn [group1 default].
  split; [exact Hshape |]. split; [exact Hplace |].
  apply DateFacts.classify_invoice.
  exact (DateFacts.follows_label_occurs_ci _ _ _ _ Hplace).
Qed.

Lemma invoiceNumber_is_a_word_witness :
  invoice_shape "#A123"
  /\ follows_label "invoice" "" "#A123" Sample.text
  /\ documentType (extractFromText Sample.text) <> None.
Proof. apply (invoiceNumber_is_a_word Sample.text "#A123"). reflexivity. Defined.

Module VendorFacts.
Import Regex RegexSpec RegexFacts RegexSound FieldFacts.

(** *** [trim] *)

Lemma trimStart_split (s : string) :
  exists ws, s = ws +:+ Js.trimStart s /\ all_of Js.is_space ws = true.
Proof.
  induction s as [| c s (ws & Hs & Hws)]; [exists ""; auto |].
  cbn [Js.trimStart]. destruct (Js.is_space c) eqn:Hc.
  - exists (String c ws). split.
    + change (String c s = String c (ws +:+ Js.trimStart s)). rewrite <- Hs. reflexivity.
    + cbn [all_of]. rewrite Hc, Hws. reflexivity.
  - exists "". auto.
Qed.

Lemma trimStart_first (s : string) :
  match Js.trimStart s with
  | EmptyString => True
  | String c _ => Js.is_space c = false
  end.
Proof.
  induction s as [| c s IH]; [exact I |].
  cbn [Js.trimStart]. destruct (Js.is_space c) eqn:Hc; [exact IH | exact Hc].
Qed.

Lemma trimEnd_split (s : string) :
  exists ws, s = Js.trimEnd s +:+ ws /\ all_of Js.is_space ws = true.
Proof.
  induction s as [| c s (ws & Hs & Hws)]; [exists ""; auto |].
  cbn [Js.trimEnd]. destruct (Js.trimEnd s) as [| a t] eqn:Ht.
  - destruct (Js.is_space c) eqn:Hc.
    + exists (String c ws). change ("" +:+ ws) with ws in Hs. split.
      * change (String c s = String c ws). rewrite <- Hs. reflexivity.
      * cbn [all_of]. rewrite Hc, Hws. reflexivity.
    + exists ws. change ("" +:+ ws) with ws in Hs. split; [| exact Hws].
      change (String c s = String c ws). rewrite <- Hs. reflexivity.
  - exists ws. split; [| exact Hws].
    change (String c s = String c (String a t +:+ ws)). rewrite <- Hs. reflexivity.
Qed.

Lemma app_last_cons (pre : string) (x c : ascii) (t : string) :
  pre +:+ String x "" = String c t ->
  (pre = "" /\ x = c /\ t = "") \/ exists pre', pre = String c pre' /\ pre' +:+ String x "" = t.
Proof.
  destruct pre as [| c' pre']; cbn.
  - intros [= -> <-]. auto.
  - change (String c' pre' +:+ String x "") with (String c' (pre' +:+ String x "")).
    intros [= -> <-]. right. eauto.
Qed.

Lemma trimEnd_last (s : string) :
  forall pre x, Js.trimEnd s = pre +:+ String x "" -> Js.is_space x = false.
Proof.
  induction s as [| c s IH]; intros pre x H.
  - destruct pre; discriminate.
  - cbn [Js.trimEnd] in H. destruct (Js.trimEnd s) as [| a t] eqn:Ht.
    + destruct (Js.is_space c) eqn:Hc; [destruct pre; discriminate |].
      symmetry in H. apply app_last_cons in H as [(_ & -> & _) | (pre' & _ & H)];
        [exact Hc | destruct pre'; discriminate].
    + symmetry in H. apply app_last_cons in H as [(_ & _ & H) | (pre' & _ & H)];
        [discriminate | exact (IH pre' x (eq_sym H))].
Qed.

Lemma trimEnd_first (c : ascii) (s : string) :
  Js.is_space c = false -> exists t, Js.trimEnd (String c s) = String c t.
Proof.
  intros Hc. cbn [Js.trimEnd]. destruct (Js.trimEnd s); [rewrite Hc |]; eauto.
Qed.

Lemma trim_trimmed (s : string) : trimmed (Js.trim s).
Proof.
  unfold trimmed, Js.trim. split; [| apply trimEnd_last].
  pose proof (trimStart_first s) as H. destruct (Js.trimStart s) as [| c t]; [exact I |].
  destruct (trimEnd_first c t H) as [t' ->]. exact H.
Qed.

Lemma trim_split (s : string) :
  exists before after,
    s = before +:+ Js.trim s +:+ after
    /\ all_of Js.is_space before = true /\ all_of Js.is_space after = true.
Proof.
  destruct (trimStart_split s) as (before & Hs & Hb).
  destruct (trimEnd_split (Js.trimStart s)) as (after & Ht & Ha).
  exists before, after. unfold Js.trim. rewrite <- Ht, <- Hs. auto.
Qed.

Lemma all_of_app (p : ascii -> bool) (a b : string) :
  all_of p (a +:+ b) = all_of p a && all_of p b.
Proof.
  induction a as [| c a IH]; [reflexivity |].
  change (String c a +:+ b) with (String c (a +:+ b)). cbn [all_of].
  rewrite IH, andb_assoc. reflexivity.
Qed.

Lemma all_of_trim (p : ascii -> bool) (s : string) :
  all_of p s = true -> all_of p (Js.trim s) = true.
Proof.
  destruct (trim_split s) as (before & after & Hs & _). intros H.
  rewrite Hs, !all_of_app in H.
  apply andb_true_iff in H as [_ H]. apply andb_true_iff in H as [H _]. exact H.
Qed.

(** *** The vendor pattern *)

Lemma search_position_prev (r : regex) (s : string) :
  forall prev res,
    search r prev s = Some res ->
    exists pre s', s = pre +:+ s' /\ match_at r (last_of prev pre) s' = Some res.
Proof.
  induction s as [| c s IH]; intros prev res H; cbn [search] in H;
    apply orelse_some in H as [H | H].
  - exists "", "". auto.
  - discriminate.
  - exists "", (String c s). auto.
  - apply IH in H as (pre & s' & -> & H). exists (String c pre), s'. auto.
Qed.

Lemma last_of_app (prev : option ascii) (pre : string) (c : ascii) :
  last_of prev (pre +:+ String c "") = Some c.
Proof.
  revert prev. induction pre as [| a pre IH]; intros prev; [reflexivity |].
  change (String a pre +:+ String c "") with (String a (pre +:+ String c "")).
  cbn [last_of]. apply IH.
Qed.

Lemma string_snoc (s : string) : s = "" \/ exists pre c, s = pre +:+ String c "".
Proof.
  induction s as [| a s [-> | (pre & c & ->)]]; [auto | right | right].
  - exists "", a. reflexivity.
  - exists (String a pre), c. reflexivity.
Qed.

Lemma last_of_line_start (pre : string) :
  match last_of None pre with
  | None => True
  | Some c => Js.is_line_terminator c = true
  end -> line_start pre.
Proof.
  destruct (string_snoc pre) as [-> | (pre0 & c & ->)]; [left; reflexivity |].
  rewrite last_of_app. intros H. right. eauto.
Qed.

Lemma exec_vendor (text : string) (res : option string) :
  exec Patterns.vendorPattern text = Some res ->
  exists pre c word post,
    res = Some c
    /\ text = pre +:+ c +:+ word +:+ post
    /\ line_start pre
    /\ all_of Patterns.not_newline c = true
    /\ (Js.toLowerCase word = "invoice" \/ Js.toLowerCase word = "bill").
Proof.
  intros H. apply search_position_prev in H as (pre & s' & -> & H).
  unfold match_at, Patterns.vendorPattern in H. cbn [seq run] in H.
  assert (line_start pre
          /\ run (Seq (Group (lazy_star Patterns.not_newline))
                    (Alt (lit_i "invoice") (lit_i "bill"))) (last_of None pre) s' None accept
             = Some res) as [Hline H'].
  { split; [apply last_of_line_start |];
      destruct (last_of None pre) as [c |]; try exact I; try exact H;
      destruct (Js.is_line_terminator c); try reflexivity; try exact H; discriminate. }
  clear H. apply run_sound in H' as (m & post & prev' & cap' & -> & Hm & H).
  unfold accept in H. injection H as <-.
  inv Hm.
  match goal with H : matches (Group _) _ _ _ |- _ => inv H end.
  match goal with H : matches (lazy_star _) _ _ _ |- _ =>
    apply matches_Rep_inv in H as (_ & Hc & _ & _) end.
  match goal with H : matches (Alt _ _) _ _ _ |- _ => inv H end.
  - match goal with H : matches _ (Some _) _ _ |- _ =>
      apply (matches_lit_i "invoice" lower_invoice) in H as [-> Hword] end.
    exists pre, m1, m2, post. split; [reflexivity |].
    split; [rewrite !string_app_assoc; reflexivity |].
    split; [exact Hline |]. split; [exact Hc |]. left. exact Hword.
  - match goal with H : matches _ (Some _) _ _ |- _ =>
      apply (matches_lit_i "bill") in H as [-> Hword];
        [| unfold lower_word; cbn; repeat constructor] end.
    exists pre, m1, m2, post. split; [reflexivity |].
    split; [rewrite !string_app_assoc; reflexivity |].
    split; [exact Hline |]. split; [exact Hc |]. right. exact Hword.
Qed.

End VendorFacts.

(** X4.  A vendor, when the extraction gives one, has no white space at
    either end and no line feed inside.  It is what a line of the text
    holds from its start up to a word that reads invoice or bill (in any
    case), without the white space around it. *)
Theorem vendor_is_a_trimmed_line_start (text name : string) :
  vendor (extractFromText text) = Some name ->
  trimmed name
  /\ RegexSpec.all_of Patterns.not_newline name = true
  /\ exists pre before after word post,
       text = pre +:+ (before +:+ name +:+ after) +:+ word +:+ post
       /\ line_start pre
       /\ RegexSpec.all_of Js.is_space before = true
       /\ RegexSpec.all_of Js.is_space after = true
       /\ RegexSpec.all_of Patterns.not_newline (before +:+ name +:+ after) = true
       /\ (Js.toLowerCase word = "invoice" \/ Js.toLowerCase word = "bill").
Proof.
  cbn [extractFromText vendor].
  destruct (Regex.exec Patterns.vendorPattern text) as [m |] eqn:H; [| discriminate].
  apply VendorFacts.exec_vendor in H as (pre & c & word & post & -> & -> & Hline & Hc & Hword).
  intros [= <-]. cbn [group1 default].
  split; [apply VendorFacts.trim_trimmed |].
  split; [exact (VendorFacts.all_of_trim _ c Hc) |].
  destruct (VendorFacts.trim_split c) as (before & after & Hsplit & Hb & Ha).
  exists pre, before, after, word, post.
  rewrite <- Hsplit. auto 10.
Qed.

Lemma vendor_is_a_trimmed_line_start_witness :
  trimmed "Acme Legal Services"
  /\ RegexSpec.all_of Patterns.not_newline "Acme Legal Services" = true
  /\ exists pre before after word post,
       Sample.text = pre +:+ (before +:+ "Acme Legal Services" +:+ after) +:+ word +:+ post
       /\ line_start pre
       /\ RegexSpec.all_of Js.is_space before = true
       /\ RegexSpec.all_of Js.is_space after = true
       /\ RegexSpec.all_of Patterns.not_newline (before +:+ "Acme Legal Services" +:+ after)
          = true
       /\ (Js.toLowerCase word = "invoice" \/ Js.toLowerCase word = "bill").
Proof. apply (vendor_is_a_trimmed_line_start Sample.text). reflexivity. Defined.

(** ** The vendor stops at the first word *)

Module LazyFacts.
Import Regex RegexSpec RegexFacts RegexSound FieldFacts VendorFacts.

Lemma app_nil_inv (a b : string) : a +:+ b = "" -> a = "" /\ b = "".
Proof. destruct a; [auto | discriminate]. Qed.

(** A lazy star stops at the first position where the continuation
    succeeds. *)
Lemma lazy_star_first (p : ascii -> bool) (k : cont) (s : string) :
  forall prev cap res,
    rep false p k 0 None prev s cap = Some res ->
    exists m s',
      s = m +:+ s' /\ all_of p m = true
      /\ k (last_of prev m) s' cap = Some res
      /\ forall m1 m2, m = m1 +:+ m2 -> m2 <> "" ->
                       k (last_of prev m1) (m2 +:+ s') cap = None.
Proof.
  induction s as [| c s IH]; intros prev cap res H; cbn [rep] in H.
  - apply orelse_some in H as [H | H]; [| discriminate].
    exists "", "". repeat split; auto.
    intros m1 m2 Hm Hne. symmetry in Hm. apply app_nil_inv in Hm as [_ ->]. congruence.
  - destruct (k prev (String c s) cap) as [res' |] eqn:Hk.
    + cbn in H. injection H as <-. exists "", (String c s). repeat split; auto.
      intros m1 m2 Hm Hne. symmetry in Hm. apply app_nil_inv in Hm as [_ ->]. congruence.
    + cbn [orelse hi_open andb] in H. destruct (p c) eqn:Hp; [| discriminate].
      cbn [Nat.pred hi_pred] in H.
      apply IH in H as (m & s' & -> & Hall & Hres & Hmin).
      exists (String c m), s'. split; [reflexivity |].
      split; [cbn; rewrite Hp, Hall; reflexivity |]. split; [exact Hres |].
      intros m1 m2 Hm Hne. destruct m1 as [| c1 m1].
      * change ("" +:+ m2) with m2 in Hm. subst m2. exact Hk.
      * change (String c1 m1 +:+ m2) with (String c1 (m1 +:+ m2)) in Hm.
        injection Hm as <- ->. cbn [last_of]. apply Hmin; [reflexivity | exact Hne].
Qed.

Lemma is_char_i_complete (c : ascii) :
  Js.is_lower (Js.lower_char c) = true -> is_char_i (Js.lower_char c) c = true.
Proof. destruct c as [[] [] [] [] [] [] [] []]; vm_compute; congruence. Qed.

(** A literal under the [i] flag matches every text that reads as the
    literal in lower case. *)
Lemma lit_i_complete (w : string) :
  lower_word w ->
  forall m rest prev cap k,
    Js.toLowerCase m = w ->
    run (lit_i w) prev (m +:+ rest) cap k = k (last_of prev m) rest cap.
Proof.
  unfold lower_word. induction w as [| a w IH]; intros Hw m rest prev cap k Hm.
  - destruct m; [reflexivity | discriminate].
  - destruct m as [| c m]; [discriminate |]. cbn in Hm. injection Hm as <- Hm.
    cbn in Hw. inversion Hw as [| ? ? Ha Hw']; subst.
    change (String c m +:+ rest) with (String c (m +:+ rest)).
    cbn [lit_i run]. rewrite (is_char_i_complete c Ha).
    cbn [last_of]. apply (IH Hw'). reflexivity.
Qed.

Lemma lower_bill : lower_word "bill".
Proof. unfold lower_word. cbn. repeat constructor. Qed.

(** Where no word invoice or bill starts. *)
Lemma no_word_here (prev : option ascii) (s : string) (cap : option string) :
  run (Alt (lit_i "invoice") (lit_i "bill")) prev s cap accept = None ->
  forall word rest,
    s = word +:+ rest ->
    Js.toLowerCase word <> "invoice" /\ Js.toLowerCase word <> "bill".
Proof.
  intros H word rest ->. cbn [run] in H. split; intros Hw.
  - rewrite (lit_i_complete "invoice" lower_invoice word rest prev cap accept Hw) in H.
    discriminate.
  - destruct (run (lit_i "invoice") prev (word +:+ rest) cap accept); [discriminate |].
    cbn [orelse] in H.
    rewrite (lit_i_complete "bill" lower_bill word rest prev cap accept Hw) in H.
    discriminate.
Qed.

Lemma exec_vendor_first (text : string) (res : option string) :
  exec Patterns.vendorPattern text = Some res ->
  exists pre c rest,
    res = Some c /\ text = pre +:+ c +:+ rest
    /\ forall c1 c2 word more,
         c = c1 +:+ c2 -> c2 <> "" -> c2 +:+ rest = word +:+ more ->
         Js.toLowerCase word <> "invoice" /\ Js.toLowerCase word <> "bill".
Proof.
  intros H. apply search_position_prev in H as (pre & s' & -> & H).
  unfold match_at, Patterns.vendorPattern in H. cbn [seq run lazy_star] in H.
  match type of H with
  | context [rep false ?p ?k 0 None ?prev s' None] =>
      assert (rep false p k 0 None prev s' None = Some res) as H'
  end.
  { destruct (last_of None pre) as [a |]; [| exact H].
    destruct (Js.is_line_terminator a); [exact H | discriminate]. }
  clear H. apply lazy_star_first in H' as (m & rest & -> & _ & Hres & Hmin).
  rewrite take_app_length in Hres.
  assert (res = Some m) as ->.
  { cbn [run] in Hres.
    apply orelse_some in Hres as [Hres | Hres];
      apply run_sound in Hres as (w1 & r1 & p1 & cap1 & _ & Hm & Hacc');
      [apply (matches_lit_i "invoice" lower_invoice) in Hm as [-> _]
      | apply (matches_lit_i "bill" lower_bill) in Hm as [-> _]];
      unfold accept in Hacc'; congruence. }
  exists pre, m, rest. split; [reflexivity |]. split; [reflexivity |].
  intros c1 c2 word more Hc Hne Hword.
  specialize (Hmin c1 c2 Hc Hne). cbn beta in Hmin.
  eapply no_word_here; [| exact Hword]. cbn [run]. exact Hmin.
Qed.

Lemma not_occurs_ci_part (w c rest : string) :
  (forall c1 c2 word more,
      c = c1 +:+ c2 -> c2 <> "" -> c2 +:+ rest = word +:+ more ->
      Js.toLowerCase word <> w) ->
  w <> "" ->
  forall before name after,
    c = before +:+ name +:+ after -> ~ occurs_ci w name.
Proof.
  intros H Hne before name after -> (a & mid & b & -> & Hmid).
  apply (H (before +:+ a) (mid +:+ b +:+ after) mid ((b +:+ after) +:+ rest)).
  - rewrite !string_app_assoc. reflexivity.
  - destruct mid; [cbn in Hmid; congruence | discriminate].
  - rewrite !string_app_assoc. reflexivity.
  - exact Hmid.
Qed.

End LazyFacts.

(** X5.  A vendor never holds the word invoice or the word bill, in any
    case of the letters: the name stops before the first of them on its
    line. *)
Theorem vendor_holds_no_trigger_word (text name : string) :
  vendor (extractFromText text) = Some name ->
  ~ occurs_ci "invoice" name /\ ~ occurs_ci "bill" name.
Proof.
  cbn [extractFromText vendor].
  destruct (Regex.exec Patterns.vendorPattern text) as [m |] eqn:H; [| discriminate].
  apply LazyFacts.exec_vendor_first in H as (pre & c & rest & -> & _ & Hmin).
  intros [= <-]. cbn [group1 default].
  destruct (VendorFacts.trim_split c) as (before & after & Hsplit & _ & _).
  split.
  - apply (LazyFacts.not_occurs_ci_part "invoice" c rest) with (before := before) (after := after);
      [| discriminate | exact Hsplit].
    intros c1 c2 word more Hc Hne Hw. exact (proj1 (Hmin c1 c2 word more Hc Hne Hw)).
  - apply (LazyFacts.not_occurs_ci_part "bill" c rest) with (before := before) (after := after);
      [| discriminate | exact Hsplit].
    intros c1 c2 word more Hc Hne Hw. exact (proj2 (Hmin c1 c2 word more Hc Hne Hw)).
Qed.

Lemma vendor_holds_no_trigger_word_witness :
  ~ occurs_ci "invoice" "Acme Legal Services" /\ ~ occurs_ci "bill" "Acme Legal Services".
Proof. apply (vendor_holds_no_trigger_word Sample.text). reflexivity. Defined.

(** ** One OCR run, case by case *)

Lemma extractBillingData_ok (result text : JsVal) (d : ExtractedData) :
  JsObj.get result "text" = inr text ->
  extractBillingData result = inr d ->
  exists s, JsObj.or text (VStr "") = VStr s /\ d = extractFromText s.
Proof.
  intros Hget. unfold extractBillingData. rewrite Hget.
  destruct (get_total result "text" "json" text Hget) as [j ->].
  destruct (JsObj.or text (VStr "")) as [| | | | s | |]; try discriminate.
  intros [= <-]. eauto.
Qed.

(** The outcome of an OCR run: its value, what it sent to the OCR service
    and what it reported to [captureException]. *)
Lemma ocr_run_outcome (key : string) (w : World) (id : string) (a : Attachment)
    (h : list AnyEvent) :
  let out := run w (processPDFWithMistralOCR key id a) h in
  ocr_requests (snd out)
  = match w h _ (GetAttachment id (attachmentId a)) with
    | inl _ => []
    | inr d => [ocr_request key a d]
    end
  /\ match fst out with
     | inr r => (exists text, r = success_result a text) /\ captured (snd out) = []
     | inl e =>
         captured (snd out) = [(e, capture_extra id a)]
         /\ last (snd out) = Some (any (CaptureException e (capture_extra id a)))
     end
  /\ (forall e, w h _ (GetAttachment id (attachmentId a)) = inl e -> fst out = inl e)
  /\ error_logs (snd out) = [].
Proof.
  unfold processPDFWithMistralOCR, ocr_attempt. unfold_async.
  cbn -[pretty extractBillingData JsObj.get].
  repeat step_world;
    (split; [reflexivity |]);
    (split; [| split; [intros ? [=]; subst; reflexivity | reflexivity]]);
    try (split; reflexivity).
  match goal with
  | Hg : JsObj.get ?result "text" = inr ?text, He : extractBillingData ?result = inr ?d |- _ =>
      destruct (extractBillingData_ok result text d Hg He) as (s & -> & ->)
  end.
  split; [exists s; reflexivity | reflexivity].
Qed.

(** ** The loop, turn by turn *)

Lemma run_pair {A} (w : World) (p : Prog A) (h : list AnyEvent) :
  run w p h = (fst (run w p h), snd (run w p h)).
Proof. destruct (run w p h); reflexivity. Qed.

Lemma enrich_one_turn (key : string) (w : World) (id : string) (a : Attachment)
    (enriched : list EnrichedAttachment) (h : list AnyEvent) :
  exists entry,
    run w (enrich_one key id a enriched) h
    = (inr (enriched ++ [entry]), snd (run w (enrich_one key id a enriched) h)).
Proof.
  destruct (enrich_one_run key w id a enriched h) as (entry & Hval & _).
  exists entry. rewrite <- Hval. apply run_pair.
Qed.

Lemma enrich_loop_turns (key : string) (w : World) (id : string) (todo : list Attachment) :
  forall (enriched : list EnrichedAttachment) (h : list AnyEvent),
  exists entries mades,
    run w (enrich_loop key id todo enriched) h = (inr (enriched ++ entries), concat mades)
    /\ Forall3 (turn key w id) todo entries mades.
Proof.
  induction todo as [| a rest IH]; intros enriched h.
  - exists [], []. cbn. rewrite app_nil_r. split; [reflexivity | constructor].
  - cbn [enrich_loop]. unfold Async.bind_ok. rewrite run_bind.
    destruct (enrich_one_turn key w id a enriched h) as (entry & Hone).
    rewrite Hone. cbn [fst snd].
    destruct (IH (enriched ++ [entry]) (h ++ snd (run w (enrich_one key id a enriched) h)))
      as (entries & mades & Hrest & Hturns).
    rewrite Hrest. cbn [fst snd].
    exists (entry :: entries), (snd (run w (enrich_one key id a enriched) h) :: mades).
    rewrite <- app_assoc. split; [reflexivity |].
    constructor; [| exact Hturns]. exists h, enriched. exact Hone.
Qed.

(** What one turn does, read off [enrich_one] and the OCR run in it. *)
Lemma turn_facts (key : string) (w : World) (id : string)
    (a : Attachment) (entry : EnrichedAttachment) (made : list AnyEvent) :
  turn key w id a entry made ->
  entry_well_formed key w id a entry
  /\ error_logs made = option_list (failure_log entry)
  /\ (is_pdf a = false -> made = [])
  /\ (provider_down w ->
      ocr_requests made = [] /\ (is_pdf a = true -> failed_entry w id entry)).
Proof.
  intros (h & enriched & Hrun). revert Hrun.
  unfold enrich_one, entry_well_formed.
  destruct (is_pdf a) eqn:Hpdf.
  - pose proof (ocr_run_outcome key w id a h) as Hout. cbn zeta in Hout.
    remember (processPDFWithMistralOCR key id a) as p eqn:Hp.
    unfold Async.try_catch, Async.bind_ok. rewrite !run_bind. cbn [fst snd].
    destruct (run w p h) as [[e | ocr] made0] eqn:Hp'; cbn [fst snd] in *.
    + cbn [run Async.exec Async.bind Async.call Async.pure fst snd].
      rewrite !app_nil_r. intros [= Hentry <-].
      apply app_inv_head in Hentry. injection Hentry as <-.
      destruct Hout as (Hreq & (Hcap & Hlast) & Hdown & Hlogs).
      assert (recorded_message e (error_message e)) as Hmessage
        by (destruct e; reflexivity).
      cbn [attachment_of failure_entry ocrResult].
      split.
      { split; [reflexivity |]. exists h. rewrite Hp'. cbn [fst].
        exists (error_message e). split; [exact Hmessage | reflexivity]. }
      split.
      { unfold error_logs in *. rewrite omap_app, Hlogs. reflexivity. }
      split; [discriminate |].
      intros Hw. destruct (Hw h id (attachmentId a)) as [e' He']. split.
      * unfold ocr_requests in *. rewrite omap_app, Hreq, He'. reflexivity.
      * intros _. exists h, e, (error_message e).
        cbn [attachment_of ocrResult].
        pose proof (Hdown e' He') as Hthrown. injection Hthrown as <-.
        split; [exact He' |]. split; [exact Hmessage | reflexivity].
    + cbn [run Async.pure fst snd]. rewrite !app_nil_r. intros [= Hentry <-].
      apply app_inv_head in Hentry. injection Hentry as <-.
      destruct Hout as (Hreq & ([text ->] & Hcap) & Hdown & Hlogs).
      cbn [attachment_of ocrResult].
      split.
      { split; [reflexivity |]. exists h. rewrite Hp'. cbn [fst].
        exists text. reflexivity. }
      split; [rewrite Hlogs; reflexivity |].
      split; [discriminate |].
      intros Hw. destruct (Hw h id (attachmentId a)) as [e' He'].
      specialize (Hdown e' He'). discriminate Hdown.
  - cbn [run Async.pure fst snd]. intros [= Hentry <-].
    apply app_inv_head in Hentry. injection Hentry as <-.
    cbn [attachment_of ocrResult].
    repeat split; auto. discriminate.
Qed.

(** The two ways a call of [processPDFAttachments] goes: the early return,
    or one log entry and then one turn of the loop for each attachment. *)
Lemma processPDFAttachments_turns (key : string) (w : World) (message : ParsedMessage) :
  (no_pdf message
   /\ value w (processPDFAttachments key message) = inr (unchanged message)
   /\ error_logs (calls w (processPDFAttachments key message)) = []
   /\ captured (calls w (processPDFAttachments key message)) = [])
  \/ (exists all entries mades payload,
        attachments message = Some all
        /\ has_pdf message
        /\ run w (processPDFAttachments key message) []
           = (inr {| message_of := message; enrichedAttachments := Some entries |},
              any (LoggerInfo "Processing PDF attachments with Mistral OCR" payload)
                :: concat mades)
        /\ Forall3 (turn key w (message_id message)) all entries mades).
Proof.
  destruct (has_pdf_or_not message) as [Hhas | Hno].
  - right. destruct Hhas as (all & a & Hall & Hin & Hpdf).
    destruct (filter_is_pdf_cons all a Hin Hpdf) as (b & rest & Hfilter).
    unfold processPDFAttachments. rewrite Hall.
    destruct all as [| a0 all']; [inversion Hin |].
    cbn beta iota zeta. remember (a0 :: all') as todo eqn:Htodo. clear Htodo.
    replace (List.length (List.filter is_pdf todo) =? 0)%nat with false
      by (rewrite Hfilter; reflexivity).
    unfold Async.exec, Async.call, Async.bind_ok, Async.pure.
    cbn [Async.bind run]. rewrite run_bind.
    match goal with
    | |- context [run w (enrich_loop key ?id todo []) ?h] =>
        destruct (enrich_loop_turns key w id todo [] h) as (entries & mades & Hrun & Hturns)
    end.
    rewrite Hrun. cbn [fst snd app run]. rewrite app_nil_r.
    eexists todo, entries, mades, _. split; [reflexivity |].
    split; [exists todo, a; auto |]. split; [reflexivity | exact Hturns].
  - left. split; [exact Hno |].
    destruct (processPDFAttachments_quiet key w message Hno) as (Hval & _).
    split; [exact Hval |].
    unfold calls, processPDFAttachments. unfold no_pdf in Hno.
    destruct (attachments message) as [[| a l] |]; cbn; auto.
    apply filter_is_pdf_nil in Hno. cbn in Hno. rewrite Hno. cbn. auto.
Qed.

Lemma turns_attachments (key : string) (w : World) (id : string)
    (all : list Attachment) (entries : list EnrichedAttachment) (mades : list (list AnyEvent)) :
  Forall3 (turn key w id) all entries mades ->
  Forall2 (entry_well_formed key w id) all entries
  /\ error_logs (concat mades) = omap failure_log entries
  /\ (provider_down w ->
      ocr_requests (concat mades) = []
      /\ Forall (fun entry => is_pdf (attachment_of entry) = true -> failed_entry w id entry)
           entries).
Proof.
  induction 1 as [| a entry made all entries mades Hturn _ (IHw & IHl & IHd)].
  - repeat split; auto.
  - apply turn_facts in Hturn as (Hw & Hl & _ & Hd).
    cbn [map concat omap list_omap]. unfold error_logs, ocr_requests in *.
    rewrite !omap_app, Hl, IHl.
    split; [constructor; assumption |].
    split; [destruct (failure_log entry); reflexivity |].
    intros Hdown. destruct (Hd Hdown) as [Hreq Hfail]. destruct (IHd Hdown) as [Hreqs Hfails].
    rewrite Hreq, Hreqs. split; [reflexivity |].
    constructor; [rewrite (proj1 Hw); exact Hfail | exact Hfails].
Qed.

(** ** [processPDFWithMistralOCR] *)

(** X6.  A result that [processPDFWithMistralOCR] returns is always a
    success under the id and the file name of the attachment, with no
    error; its [ocrText] is a string, whatever the OCR service sent, and
    its [extractedData] is the extraction of that very string. *)
Theorem ocr_result_is_extraction_of_its_text
    (key : string) (w : World) (id : string) (a : Attachment) (h : list AnyEvent)
    (r : MistralOCRResult) :
  fst (run w (processPDFWithMistralOCR key id a) h) = inr r ->
  exists text,
    r = {| ocr_attachmentId := attachmentId a;
           ocr_filename := filename a;
           success := true;
           ocrText := Some (VStr text);
           extractedData := Some (extractFromText text);
           error := None |}.
Proof.
  intros H. destruct (ocr_run_outcome key w id a h) as (_ & Hout & _).
  cbn zeta in Hout. rewrite H in Hout. destruct Hout as [[text ->] _].
  exists text. reflexivity.
Qed.

Lemma ocr_result_is_extraction_of_its_text_witness :
  exists text,
    success_result Sample.bill Sample.text
    = {| ocr_attachmentId := attachmentId Sample.bill;
         ocr_filename := filename Sample.bill;
         success := true;
         ocrText := Some (VStr text);
         extractedData := Some (extractFromText text);
         error := None |}.
Proof.
  apply (ocr_result_is_extraction_of_its_text Sample.key Sample.healthy "msg-1" Sample.bill []).
  reflexivity.
Defined.

(** X7.  [captureException] is called exactly when the OCR run throws:
    once, with the error that is thrown and the ids and the file name of
    the attachment, as the last call of the run; a run that returns
    reports nothing. *)
Theorem captureException_exactly_when_thrown
    (key : string) (w : World) (id : string) (a : Attachment) (h : list AnyEvent) :
  captured (snd (run w (processPDFWithMistralOCR key id a) h))
  = match fst (run w (processPDFWithMistralOCR key id a) h) with
    | inl e => [(e, capture_extra id a)]
    | inr _ => []
    end
  /\ forall e,
       fst (run w (processPDFWithMistralOCR key id a) h) = inl e ->
       last (snd (run w (processPDFWithMistralOCR key id a) h))
       = Some (any (CaptureException e (capture_extra id a))).
Proof.
  destruct (ocr_run_outcome key w id a h) as (_ & Hout & _). cbn zeta in Hout.
  destruct (fst (run w (processPDFWithMistralOCR key id a) h)) as [e | r].
  - destruct Hout as [Hcap Hlast]. split; [exact Hcap |]. intros e' [= <-]. exact Hlast.
  - destruct Hout as [_ Hcap]. split; [exact Hcap | discriminate].
Qed.

(** X8.  The OCR service is called exactly when the provider gave the
    attachment, and then once: with a POST that carries the data the
    provider gave, the file name of the attachment, the model
    mistral-ocr-2505 and the bearer key.  When the provider rejects, the
    run throws what the provider rejected with. *)
Theorem ocr_request_exactly_when_retrieved
    (key : string) (w : World) (id : string) (a : Attachment) (h : list AnyEvent) :
  ocr_requests (snd (run w (processPDFWithMistralOCR key id a) h))
  = match w h _ (GetAttachment id (attachmentId a)) with
    | inl _ => []
    | inr d =>
        [ {| request_method := "POST";
             request_authorization := "Bearer " +:+ key;
             form_file := data d;
             form_filename := filename a;
             form_model := "mistral-ocr-2505";
             form_include_json := "true" |} ]
    end
  /\ forall e,
       w h _ (GetAttachment id (attachmentId a)) = inl e ->
       fst (run w (processPDFWithMistralOCR key id a) h) = inl e.
Proof.
  destruct (ocr_run_outcome key w id a h) as (Hreq & _ & Hdown & _). cbn zeta in *.
  split; [exact Hreq | exact Hdown].
Qed.

(** ** [processPDFAttachments] *)

(** X9.  [processPDFAttachments] always returns and never throws, for
    every message and whatever the provider and the OCR service do.  What
    it returns holds the message as it was, and has [enrichedAttachments]
    exactly when the message has a PDF attachment. *)
Theorem processPDFAttachments_always_returns
    (key : string) (w : World) (message : ParsedMessage) :
  exists enriched,
    value w (processPDFAttachments key message)
    = inr {| message_of := message; enrichedAttachments := enriched |}
    /\ (enriched = None <-> no_pdf message)
    /\ (is_Some enriched <-> has_pdf message).
Proof.
  destruct (processPDFAttachments_turns key w message)
    as [(Hno & Hval & _) | (all & entries & mades & payload & Hall & Hhas & Hrun & _)].
  - exists None. split; [exact Hval |]. split; [tauto |].
    split; [intros [x Hx]; discriminate |].
    intros Hhas. destruct (no_pdf_not_has_pdf message Hno Hhas).
  - exists (Some entries). unfold value. rewrite Hrun. split; [reflexivity |].
    split; [| split; [auto | eauto]].
    split; [discriminate |]. intros Hno. destruct (no_pdf_not_has_pdf message Hno Hhas).
Qed.



(** X11.  When the e-mail provider rejects every request, no request at
    all is sent to the OCR service, and the entry of every PDF attachment
    is a failure: [success] false, neither text nor data, and as [error]
    the message of the error the provider rejected the request for that
    attachment with. *)
Theorem provider_down_no_ocr
    (key : string) (w : World) (message : ParsedMessage) :
  provider_down w ->
  ocr_requests (calls w (processPDFAttachments key message)) = []
  /\ forall enriched,
       value w (processPDFAttachments key message)
       = inr {| message_of := message; enrichedAttachments := Some enriched |} ->
       Forall (fun entry =>
                 is_pdf (attachment_of entry) = true ->
                 failed_entry w (message_id message) entry)
         enriched.
Proof.
  intros Hdown.
  destruct (processPDFAttachments_turns key w message)
    as [(Hno & Hval & _) | (all & entries & mades & payload & _ & _ & Hrun & Hturns)].
  - split.
    + exact (proj2 (proj2 (processPDFAttachments_quiet key w message Hno))).
    + intros enriched Hval'. rewrite Hval in Hval'. discriminate.
  - destruct (turns_attachments _ _ _ _ _ _ Hturns) as (_ & _ & Hd).
    destruct (Hd Hdown) as [Hreq Hfail].
    unfold calls, value. rewrite Hrun. cbn [fst snd]. split.
    + unfold ocr_requests in *. cbn. exact Hreq.
    + intros enriched [= <-]. exact Hfail.
Qed.

Lemma provider_down_no_ocr_witness :
  ocr_requests
    (calls no_provider
       (processPDFAttachments Sample.key (Sample.message (Some [Sample.bill; Sample.scan]))))
  = []
  /\ forall enriched,
       value no_provider
         (processPDFAttachments Sample.key (Sample.message (Some [Sample.bill; Sample.scan])))
       = inr {| message_of := Sample.message (Some [Sample.bill; Sample.scan]);
                enrichedAttachments := Some enriched |} ->
       Forall (fun entry =>
                 is_pdf (attachment_of entry) = true ->
                 failed_entry no_provider "msg-1" entry)
         enriched.
Proof.
  apply (provider_down_no_ocr Sample.key no_provider
           (Sample.message (Some [Sample.bill; Sample.scan]))).
  intros h id attachment_id. eexists. reflexivity.
Defined.

(** X12.  [logger.error] is called once for each attachment whose OCR run
    failed, in the order of the attachments, with the file name and the
    error message that the entry of the attachment records; it is never
    called otherwise. *)
Theorem failures_logged_once
    (key : string) (w : World) (message : ParsedMessage) :
  exists enriched,
    value w (processPDFAttachments key message)
    = inr {| message_of := message; enrichedAttachments := enriched |}
    /\ error_logs (calls w (processPDFAttachments key message))
       = omap failure_log (default [] enriched).
Proof.
  destruct (processPDFAttachments_turns key w message)
    as [(Hno & Hval & Hlogs & _) | (all & entries & mades & payload & _ & _ & Hrun & Hturns)].
  - exists None. split; [exact Hval | exact Hlogs].
  - exists (Some entries). unfold value, calls. rewrite Hrun. split; [reflexivity |].
    destruct (turns_attachments _ _ _ _ _ _ Hturns) as (_ & Hl & _).
    cbn [fst snd default]. unfold error_logs in *. cbn. exact Hl.
Qed.

(** ** [isLikelyBillingMessage] with [processPDFAttachments] *)

Lemma likely_has_pdf (message : ParsedMessage) :
  isLikelyBillingMessage message = true -> has_pdf message.
Proof.
  unfold isLikelyBillingMessage. intros H. apply andb_true_iff in H as [_ H].
  apply hasPDFAttachments_spec. exact H.
Qed.

(** X13.  A message that [isLikelyBillingMessage] accepts is never sent
    back as it is by [processPDFAttachments]: the result has
    [enrichedAttachments], the provider is asked for an attachment at
    least once, and at least one entry carries an [ocrResult]. *)
Theorem likely_billing_message_is_enriched
    (key : string) (w : World) (message : ParsedMessage) :
  isLikelyBillingMessage message = true ->
  exists enriched,
    value w (processPDFAttachments key message)
    = inr {| message_of := message; enrichedAttachments := Some enriched |}
    /\ provider_calls (calls w (processPDFAttachments key message)) <> []
    /\ Exists (fun entry => is_Some (ocrResult entry)) enriched.
Proof.
  intros Hlikely. apply likely_has_pdf in Hlikely as (all & a & Hall & Hin & Hpdf).
  destruct (processPDFAttachments_run key w message all Hall)
    as (enriched & Hval & Hentries & Hget & _); [eauto |].
  exists enriched. split; [exact Hval |]. split.
  - rewrite Hget. destruct (filter_is_pdf_cons all a Hin Hpdf) as (b & rest & ->).
    discriminate.
  - clear Hval Hget Hall. induction Hentries as [| a0 entry l l' (h & Ha & Hentry) _ IH].
    + inversion Hin.
    + apply elem_of_cons in Hin as [<- | Hin].
      * left. apply is_pdf_true in Hpdf. rewrite Hpdf in Hentry.
        destruct (fst (run w (processPDFWithMistralOCR key (message_id message) a) h))
          as [e | ocr];
          [destruct Hentry as (m & _ & Hentry) |]; rewrite Hentry; eauto.
      * right. exact (IH Hin).
Qed.

Lemma likely_billing_message_is_enriched_witness :
  exists enriched,
    value Sample.down
      (processPDFAttachments Sample.key (Sample.message (Some [Sample.notes; Sample.bill])))
    = inr {| message_of := Sample.message (Some [Sample.notes; Sample.bill]);
             enrichedAttachments := Some enriched |}
    /\ provider_calls
         (calls Sample.down
            (processPDFAttachments Sample.key
               (Sample.message (Some [Sample.notes; Sample.bill])))) <> []
    /\ Exists (fun entry => is_Some (ocrResult entry)) enriched.
Proof. apply likely_billing_message_is_enriched. reflexivity. Defined.

(** ** [isLikelyBillingMessage] *)

Lemma occurs_trans (a b c : string) : occurs a b -> occurs b c -> occurs a c.
Proof.
  intros (p1 & q1 & ->) (p2 & q2 & ->). exists (p2 +:+ p1), (q1 +:+ q2).
  rewrite !string_app_assoc. reflexivity.
Qed.

Lemma includes_occurs (s p : string) : Js.includes s p = true <-> occurs p s.
Proof. apply includes_spec. Qed.

Lemma occurs_lower (a b : string) :
  occurs a b -> occurs (Js.toLowerCase a) (Js.toLowerCase b).
Proof.
  intros (p & q & ->). exists (Js.toLowerCase p), (Js.toLowerCase q).
  rewrite !toLowerCase_app. reflexivity.
Qed.

Lemma includes_mono (s s' keyword : string) :
  occurs s s' ->
  Js.includes (Js.toLowerCase s) keyword = true ->
  Js.includes (Js.toLowerCase s') keyword = true.
Proof.
  intros Hs H. apply includes_occurs in H. apply includes_occurs.
  exact (occurs_trans _ _ _ H (occurs_lower _ _ Hs)).
Qed.

(** X14.  [isLikelyBillingMessage] is monotone: a message that it accepts
    stays accepted when text is added around its subject or its from
    header and when attachments are added. *)
Theorem isLikelyBillingMessage_monotone (message message' : ParsedMessage) :
  extends_message message message' ->
  isLikelyBillingMessage message = true ->
  isLikelyBillingMessage message' = true.
Proof.
  intros (Hsubject & Hfrom & Hatt). unfold isLikelyBillingMessage.
  rewrite !andb_true_iff, !existsb_exists. intros [(keyword & Hin & Hk) Hpdf]. split.
  - exists keyword. split; [exact Hin |].
    apply orb_true_iff in Hk as [Hk | Hk]; apply orb_true_iff;
      [left; exact (includes_mono _ _ _ Hsubject Hk)
      | right; exact (includes_mono _ _ _ Hfrom Hk)].
  - destruct (attachments message) as [all |]; [| discriminate].
    destruct (Hatt all eq_refl) as (all' & -> & Hsub).
    apply existsb_is_pdf in Hpdf as (a & Ha & Hp). apply existsb_is_pdf.
    exists a. split; [apply Hsub; exact Ha | exact Hp].
Qed.

Lemma isLikelyBillingMessage_monotone_witness :
  isLikelyBillingMessage
    {| message_id := "msg-2"; subject := "Fwd: Your March invoice (2nd reminder)";
       headers_from := "Acme <billing@acme.example>";
       attachments := Some [Sample.notes; Sample.bill; Sample.scan]; message_rest := [] |}
  = true.
Proof.
  apply (isLikelyBillingMessage_monotone (Sample.message (Some [Sample.bill]))).
  - split; [exists "Fwd: ", " (2nd reminder)"; reflexivity |].
    split; [exists "", ""; reflexivity |].
    intros all [= <-]. eexists. split; [reflexivity |].
    intros a Ha. apply list_elem_of_singleton in Ha. subst a.
    right. left.
  - reflexivity.
Defined.

(** ** When [extractBillingData] throws *)

(** X15.  [extractBillingData] throws a TypeError in exactly two cases: the
    OCR result is [null] or [undefined], or its [text] is truthy and not a
    string.  A string [text] gives the extraction of that string, and an
    absent or falsy [text] gives the extraction of the empty string. *)
Theorem extractBillingData_cases (ocrResult : JsVal) :
  match JsObj.get ocrResult "text" with
  | inl e =>
      (ocrResult = VNull \/ ocrResult = VUndefined)
      /\ extractBillingData ocrResult = inl e /\ error_name e = Some "TypeError"
  | inr (VStr s) => extractBillingData ocrResult = inr (extractFromText s)
  | inr text =>
      if JsObj.truthy text
      then extractBillingData ocrResult = inl (TypeError "text.match is not a function")
      else extractBillingData ocrResult = inr (extractFromText "")
  end.
Proof.
  unfold extractBillingData.
  destruct (JsObj.get ocrResult "text") as [e | text] eqn:Hget.
  - destruct ocrResult; cbn in Hget; try discriminate; injection Hget as <-; auto.
  - destruct (get_total ocrResult "text" "json" text Hget) as [j ->].
    unfold JsObj.or.
    destruct text as [| | b | n | s | items | fields]; cbn; try reflexivity.
    + destruct b; reflexivity.
    + destruct n as [| q | | |]; try reflexivity. destruct (Qeq_bool q 0); reflexivity.
    + destruct (String.eqb s "") eqn:E; cbn; [| reflexivity].
      apply String.eqb_eq in E. subst s. reflexivity.
Qed.
